(** * finder: unique CSS selector search, embedded from [src/index.ts]

    The development follows the source file top to bottom.  The DOM, the
    selector engine and [cssesc] are collaborators of the program: they are
    taken as an interface ([Browser]); everything else is translated from the
    TypeScript functions, with the same names. *)

From Stdlib Require Import ZArith String Ascii Bool Lia List.
From Stdlib Require Import Permutation Sorted DecimalString.
Import ListNotations.

Local Open Scope string_scope.
Local Open Scope list_scope.
Local Open Scope Z_scope.

(* ================================================================= *)
(** ** Strings as the program uses them *)

(** [String.prototype.toLowerCase], on the ASCII range (tag names). *)
Definition lowerAscii (c : ascii) : ascii :=
  let n := nat_of_ascii c in
  if (Nat.leb 65 n && Nat.leb n 90)%bool then ascii_of_nat (n + 32) else c.

Fixpoint toLowerCase (s : string) : string :=
  match s with
  | EmptyString => EmptyString
  | String c s' => String (lowerAscii c) (toLowerCase s')
  end.

(** [String.prototype.startsWith]; also the regular expression [/^data-/]. *)
Definition startsWith (s pre : string) : bool := String.prefix pre s.

(** A number interpolated in a template literal. *)
Definition decimal (n : nat) : string := NilEmpty.string_of_uint (Nat.to_uint n).

(** The double quote of an attribute selector. *)
Definition quote : string := String (ascii_of_nat 34) EmptyString.

Infix "+++" := String.append (at level 60, right associativity).

(* ================================================================= *)
(** ** The document tree, seen from one node upward *)

Module Dom.

(** One entry of [parent.childNodes]: the identity of the child and its
    [nodeType]; [firstChild] is the head, [nextSibling] the next entry. *)
Record Child : Type := mkChild {
  childRef : nat;
  childType : Z
}.

(** A DOM node together with its chain of parents.  [ref] is the identity
    of the object ([===] compares it). *)
#[local] Set Warnings "-register-all".
Inductive Element : Type := mkElement {
  ref : nat;
  nodeType : Z;
  tagName : string;
  id : string;
  classList : list string;
  attributes : list (string * string);
  childNodes : list Child;
  parentNode : option Element
}.

Definition ELEMENT_NODE : Z := 1.

(** [parentElement] is [parentNode] when that node is an element. *)
Definition parentElement (e : Element) : option Element :=
  match parentNode e with
  | Some p => if nodeType p =? ELEMENT_NODE then Some p else None
  | None => None
  end.

End Dom.

Abbreviation Element := Dom.Element.

(** The collaborators: the escaping function and the live document with its
    match engine.  [querySelectorAll] lists the references of the matching
    nodes in document order; [querySelector] is its first entry.  The engine
    answers every selector: a syntax error of the engine itself is outside
    the model. *)
Class Browser : Type := {
  cssesc : string -> string;
  body : Element;
  querySelectorAll : string -> list nat
}.

Definition querySelector `{Browser} (s : string) : option nat :=
  hd_error (querySelectorAll s).

(* ================================================================= *)
(** ** Fragments, paths, limits and options (lines 3-25) *)

Module Node.
Record t : Type := mk {
  name : string;
  penalty : Z;
  level : option Z
}.
End Node.

Definition Path : Type := list Node.t.

Inductive Limit : Type := All | Two | One.

Module Options.
Record t : Type := mk {
  root : Element;
  className : string -> bool;
  dataAttribute : string -> bool;
  tagName : string -> bool;
  seedMinLength : Z;
  optimizedMinLength : Z;
  threshold : Z
}.

(** [Partial<Options>]: a key is present or not. *)
Record partial : Type := mkPartial {
  root' : option Element;
  className' : option (string -> bool);
  dataAttribute' : option (string -> bool);
  tagName' : option (string -> bool);
  seedMinLength' : option Z;
  optimizedMinLength' : option Z;
  threshold' : option Z
}.

Definition orElse {A} (o : option A) (d : A) : A :=
  match o with Some a => a | None => d end.

(** [{...defaults, ...options}] *)
Definition spread (defaults : t) (options : option partial) : t :=
  match options with
  | None => defaults
  | Some o =>
      mk (orElse (root' o) (root defaults))
         (orElse (className' o) (className defaults))
         (orElse (dataAttribute' o) (dataAttribute defaults))
         (orElse (tagName' o) (tagName defaults))
         (orElse (seedMinLength' o) (seedMinLength defaults))
         (orElse (optimizedMinLength' o) (optimizedMinLength defaults))
         (orElse (threshold' o) (threshold defaults))
  end.
End Options.

(* ================================================================= *)
(** ** Effects: exceptions, the [config] slot and the queries sent to the
       document *)

Inductive Error : Type :=
| NonElement                 (* Can't generate CSS selector for non-element node type. *)
| NotFound                   (* Selector was not found. *)
| CantSelect (sel : string)  (* Can't select any node with this selector: ... *)
| TypeError.                 (* reading a property of undefined *)

Inductive Outcome (A : Type) : Type :=
| Return (a : A)
| Throw (e : Error).
Arguments Return {A} a.
Arguments Throw {A} e.

Inductive Query : Type :=
| QueryAll (sel : string)    (* document.querySelectorAll(sel) *)
| QueryFirst (sel : string). (* document.querySelector(sel) *)

(** [config] is the module-level [let config: Options] (line 27); [queries]
    records, oldest first, every call made to the match engine. *)
Record World : Type := mkWorld {
  config : option Options.t;
  queries : list Query
}.

Definition M (A : Type) : Type := World -> Outcome A * World.

Definition ret {A} (a : A) : M A := fun w => (Return a, w).
Definition throw {A} (e : Error) : M A := fun w => (Throw e, w).
Definition bind {A B} (m : M A) (k : A -> M B) : M B :=
  fun w => match m w with
           | (Return a, w') => k a w'
           | (Throw e, w') => (Throw e, w')
           end.
Definition lift {A} (o : Outcome A) : M A := fun w => (o, w).

Notation "x <- m ;; k" := (bind m (fun x => k))
  (at level 61, m at next level, right associativity).
Notation "m ;;; k" := (bind m (fun _ => k))
  (at level 61, right associativity).

Definition setConfig (c : Options.t) : M unit :=
  fun w => (Return tt, mkWorld (Some c) (queries w)).

Definition ask (q : Query) : M unit :=
  fun w => (Return tt, mkWorld (config w) (queries w ++ [q])).

(* ================================================================= *)
(** ** The program *)

Section Finder.

Context `{browser : Browser}.

(** *** Rendering and cost of a path (lines 141-160) *)

(** [path[i].level || 0] *)
Definition levelOrZero (n : Node.t) : Z :=
  match Node.level n with
  | Some l => if l =? 0 then 0 else l
  | None => 0
  end.

(** One turn of the [for] loop of [selector]: [node] is the fragment of the
    previous turn, [outer] is [path[i]]. *)
Definition selectorStep (acc : Node.t * string) (outer : Node.t) : Node.t * string :=
  let '(node, query) := acc in
  let level := levelOrZero outer in
  let contiguous :=
    match Node.level node with
    | Some l => l =? level - 1
    | None => false
    end in
  if contiguous
  then (outer, Node.name outer +++ " > " +++ query)
  else (outer, Node.name outer +++ " " +++ query).

Definition selector (path : Path) : Outcome string :=
  match path with
  | [] => Throw TypeError
  | node :: rest => Return (snd (fold_left selectorStep rest (node, Node.name node)))
  end.

Definition penalty (path : Path) : Z :=
  fold_left (fun acc i => acc + i) (map Node.penalty path) 0.

(** *** The oracle (lines 162-171 and 303-305) *)

Definition unique (path : Path) : M bool :=
  sel <- lift (selector path) ;;
  ask (QueryAll sel) ;;;
  match length (querySelectorAll sel) with
  | O => throw (CantSelect sel)
  | S O => ret true
  | _ => ret false
  end.

Definition same (path : Path) (input : Element) : M bool :=
  sel <- lift (selector path) ;;
  ask (QueryFirst sel) ;;;
  ret match querySelector sel with
      | Some r => Nat.eqb r (Dom.ref input)
      | None => false
      end.

(** *** Candidates of one element (lines 173-273) *)

Definition id (input : Element) : option Node.t :=
  if negb (String.eqb (Dom.id input) EmptyString)
  then Some (Node.mk ("#" +++ cssesc (Dom.id input)) 0 None)
  else None.

Definition classNames (config : Options.t) (input : Element) : list Node.t :=
  let names := filter (Options.className config) (Dom.classList input) in
  map (fun name => Node.mk ("." +++ cssesc name) 1 None) names.

Definition dataAttributes (config : Options.t) (input : Element) : list Node.t :=
  let attributes :=
    filter (fun attribute : string * string =>
              Options.dataAttribute config (fst attribute)
              && startsWith (fst attribute) "data-")%bool
           (Dom.attributes input) in
  map (fun attribute : string * string =>
         Node.mk ("[" +++ fst attribute +++ "=" +++ quote +++ snd attribute +++ quote +++ "]")
                 2 None)
      attributes.

Definition tagName (config : Options.t) (input : Element) : option Node.t :=
  let name := toLowerCase (Dom.tagName input) in
  if Options.tagName config name
  then Some (Node.mk name 3 None)
  else None.

Definition any : Node.t := Node.mk "*" 4 None.

(** The [while (true)] loop of [index], over the children from [child] on. *)
Fixpoint indexLoop (input : Element) (children : list Dom.Child) (i : nat) : nat :=
  match children with
  | [] => i
  | child :: siblings =>
      let i := if Dom.childType child =? Dom.ELEMENT_NODE then S i else i in
      if (Nat.eqb (Dom.childRef child) (Dom.ref input)
          || match siblings with [] => true | _ => false end)%bool
      then i
      else indexLoop input siblings i
  end.

Definition index (input : Element) : option nat :=
  match Dom.parentNode input with
  | None => None
  | Some parent =>
      match Dom.childNodes parent with
      | [] => None
      | children => Some (indexLoop input children 0)
      end
  end.

Definition nthChild (node : Node.t) (i : nat) : Node.t :=
  Node.mk (Node.name node +++ ":nth-child(" +++ decimal i +++ ")")
          (Node.penalty node + 1) None.

Definition dispensableNth (node : Node.t) : bool :=
  (negb (String.eqb (Node.name node) "html")
   && negb (startsWith (Node.name node) "#"))%bool.

Definition notEmpty {T} (value : option T) : bool :=
  match value with Some _ => true | None => false end.

(** The elements that [filter(notEmpty)] keeps, at their narrowed type. *)
Fixpoint present {T} (level : list (option T)) : list T :=
  match level with
  | [] => []
  | Some n :: rest => n :: present rest
  | None :: rest => present rest
  end.

Definition maybe (level : list (option Node.t)) : option (list Node.t) :=
  let list := present (filter notEmpty level) in
  if Nat.ltb 0 (length list) then Some list else None.

(** *** The level of one element (lines 75-103) *)

(** [maybe(id) || maybe(...classNames) || maybe(...dataAttributes) ||
    maybe(tagName) || [any()]] (lines 75-79) *)
Definition candidates (config : Options.t) (current : Element) : list Node.t :=
  match maybe [id current] with
  | Some level => level
  | None =>
  match maybe (map Some (classNames config current)) with
  | Some level => level
  | None =>
  match maybe (map Some (dataAttributes config current)) with
  | Some level => level
  | None =>
  match maybe [tagName config current] with
  | Some level => level
  | None => [any]
  end end end end.

(** [level.concat(level.filter(dispensableNth).map(node => nthChild(node, nth)))] *)
Definition withNth (level : list Node.t) (nth : nat) : list Node.t :=
  level ++ map (fun node => nthChild node nth) (filter dispensableNth level).

(** The three branches on [limit] (lines 83-99); [nth] is truthy when it is
    neither [null] nor [0]. *)
Definition limited (limit : Limit) (level : list Node.t) (nth : option nat) : list Node.t :=
  match limit with
  | All =>
      match nth with
      | Some (S _ as n) => withNth level n
      | _ => level
      end
  | Two =>
      let level := firstn 1 level in
      match nth with
      | Some (S _ as n) => withNth level n
      | _ => level
      end
  | One =>
      let level := firstn 1 level in
      match level with
      | node :: _ =>
          match nth with
          | Some (S _ as n) => if dispensableNth node then [nthChild node n] else level
          | _ => level
          end
      | [] => level   (* not reached: [candidates] is never empty *)
      end
  end.

(** [for (let node of level) node.level = i] (lines 101-103) *)
Definition setLevel (i : Z) (node : Node.t) : Node.t :=
  Node.mk (Node.name node) (Node.penalty node) (Some i).

Definition levelOf (config : Options.t) (limit : Limit) (current : Element) (i : Z)
  : list Node.t :=
  map (setLevel i) (limited limit (candidates config current) (index current)).

(** *** Combinations and their order (lines 275-287) *)

Fixpoint combinations (stack : list (list Node.t)) (path : Path) : list Path :=
  match stack with
  | [] => [path]
  | level :: rest => flat_map (fun node => combinations rest (path ++ [node])) level
  end.

(** The comparator given to [Array.prototype.sort]. *)
Definition compare (a b : Path) : Z := penalty a - penalty b.

(** [Array.prototype.sort] is stable (ECMAScript 2019): elements that the
    comparator does not separate keep their order.  The stable sort is
    written as an insertion from the right, a path going before the first
    path that is not cheaper than it. *)
Fixpoint insert (p : Path) (sorted : list Path) : list Path :=
  match sorted with
  | [] => [p]
  | q :: rest => if compare q p <? 0 then q :: insert p rest else p :: sorted
  end.

Definition sort (paths : list Path) : list Path := fold_right insert [] paths.

(** *** Resolving a stack (lines 125-139) *)

(** The [for (let candidate of paths)] loop. *)
Fixpoint firstUnique (paths : list Path) : M (option Path) :=
  match paths with
  | [] => ret None
  | candidate :: rest =>
      u <- unique candidate ;;
      if u then ret (Some candidate) else firstUnique rest
  end.

Definition findUniquePath (config : Options.t) (stack : list (list Node.t))
           (fallback : option (M (option Path))) : M (option Path) :=
  let paths := sort (combinations stack []) in
  if Options.threshold config <? Z.of_nat (length paths)
  then match fallback with
       | Some f => f
       | None => ret None
       end
  else firstUnique paths.

(** *** The walk up the ancestors (lines 68-123) *)

(** [current !== config.root.parentElement], for a [current] that is not
    [null]. *)
Definition belowRootParent (config : Options.t) (current : Element) : bool :=
  match Dom.parentElement (Options.root config) with
  | Some p => negb (Nat.eqb (Dom.ref current) (Dom.ref p))
  | None => true
  end.

(** The [while] loop, entered with a [current] that is not [null]; it
    gives back the local variables [path] and [stack].  The step to
    [current.parentElement] is written on [parentNode] so that the
    recursion is structural ([walk_unfold] restates it). *)
Fixpoint walk (config : Options.t) (limit : Limit) (fallback : option (M (option Path)))
         (current : Element) (stack : list (list Node.t)) (i : Z) {struct current}
  : M (option Path * list (list Node.t)) :=
  if belowRootParent config current then
    let level := levelOf config limit current i in
    let stack := stack ++ [level] in
    path <- (if Options.seedMinLength config <=? Z.of_nat (length stack)
             then findUniquePath config stack fallback
             else ret None) ;;
    match path with
    | Some _ => ret (path, stack)
    | None =>
        (* current = current.parentElement; i++ *)
        match Dom.parentNode current with
        | Some parent =>
            if Dom.nodeType parent =? Dom.ELEMENT_NODE
            then walk config limit fallback parent stack (i + 1)
            else ret (None, stack)
        | None => ret (None, stack)
        end
    end
  else ret (None, stack).

Definition bottomUpSearch (config : Options.t) (input : Element) (limit : Limit)
           (fallback : option (M (option Path))) : M (option Path) :=
  r <- walk config limit fallback input [] 0 ;;
  match fst r with
  | Some path => ret (Some path)
  | None => findUniquePath config (snd r) fallback
  end.

(** *** Minimizing a path (lines 289-301) *)

(** [const newPath = [...path]; newPath.splice(i, 1)] *)
Definition without (path : Path) (i : nat) : Path :=
  firstn i path ++ skipn (S i) path.

(** A [for] loop whose body yields paths; [Array.from] collects them in
    the order of the yields. *)
Fixpoint forEach {A B} (xs : list A) (body : A -> M (list B)) : M (list B) :=
  match xs with
  | [] => ret []
  | x :: rest =>
      ys <- body x ;;
      zs <- forEach rest body ;;
      ret (ys ++ zs)
  end.

(** [optimize] calls itself on a path one fragment shorter; [fuel] bounds
    the depth of these calls. *)
Fixpoint optimizeFuel (fuel : nat) (config : Options.t) (path : Path) (input : Element)
  : M (list Path) :=
  match fuel with
  | O => ret []
  | S fuel =>
      if (Nat.ltb 2 (length path)
          && (Options.optimizedMinLength config <? Z.of_nat (length path)))%bool
      then
        forEach (seq 1 (length path - 2)) (fun i =>
          let newPath := without path i in
          u <- unique newPath ;;
          s <- (if u then same newPath input else ret false) ;;
          if s
          then rest <- optimizeFuel fuel config newPath input ;;
               ret (newPath :: rest)
          else ret [])
      else ret []
  end.

Definition optimize (config : Options.t) (path : Path) (input : Element) : M (list Path) :=
  optimizeFuel (length path) config path input.

(** *** The entry point (lines 29-66) *)

Definition defaults : Options.t :=
  Options.mk body (fun _ => true) (fun _ => true) (fun _ => true) 1 2 1000.

(** The three nested searches of lines 50-53. *)
Definition search (config : Options.t) (input : Element) : M (option Path) :=
  bottomUpSearch config input All (Some (
    bottomUpSearch config input Two (Some (
      bottomUpSearch config input One None)))).

(** Lines 56-60: the path that [generate] renders. *)
Definition minimized (config : Options.t) (path : Path) (input : Element) : M Path :=
  found <- optimize config path input ;;
  let optimized := sort found in
  ret match optimized with
      | best :: _ => best
      | [] => path
      end.

Definition generate (input : Element) (options : option Options.partial) : M string :=
  if negb (Dom.nodeType input =? Dom.ELEMENT_NODE) then throw NonElement
  else if String.eqb "html" (toLowerCase (Dom.tagName input))
  then ret (toLowerCase (Dom.tagName input))
  else
    let config := Options.spread defaults options in
    setConfig config ;;;
    path <- search config input ;;
    match path with
    | Some path =>
        path <- minimized config path input ;;
        lift (selector path)
    | None => throw NotFound
    end.

(** *** Words for the statements *)

(** The number of nodes that a path matches once rendered (a path that
    does not render matches nothing). *)
Definition matches (path : Path) : nat :=
  match selector path with
  | Return sel => length (querySelectorAll sel)
  | Throw _ => O
  end.

(** The text that a path renders to. *)
Definition text (path : Path) : string :=
  match selector path with
  | Return sel => sel
  | Throw _ => EmptyString
  end.

(** The world after more queries were sent. *)
Definition afterAsking (w : World) (asked : list Query) : World :=
  mkWorld (config w) (queries w ++ asked).

(** One uniqueness test per path. *)
Definition tests (paths : list Path) : list Query :=
  map (fun c => QueryAll (text c)) paths.

(** A property of the outcome of a computation, whatever the world it
    starts in. *)
Definition ensures {A} (m : M A) (Q : Outcome A -> Prop) : Prop :=
  forall w, Q (fst (m w)).

(** The errors that the oracle raises: no match, or a path that does not
    render. *)
Definition oracleError (e : Error) : Prop :=
  e = TypeError \/ exists sel, e = CantSelect sel.

(** The outcome of a computation that collects paths: they all satisfy
    [P], or the error is one of the oracle. *)
Definition collects {B} (P : B -> Prop) (o : Outcome (list B)) : Prop :=
  match o with
  | Return ys => Forall P ys
  | Throw e => oracleError e
  end.

(** The fragments of a path cost nothing negative. *)
Definition nonNegative (path : Path) : Prop :=
  Forall (fun f => 0 <= Node.penalty f) path.

(** The outcome of a search: a path satisfying [Q], or no path, or an error
    of the oracle. *)
Definition found (Q : Path -> Prop) (o : Outcome (option Path)) : Prop :=
  match o with
  | Return (Some path) => Q path
  | Return None => True
  | Throw e => oracleError e
  end.

(** What the search promises of a path: it matches one node and none of
    its fragments has a negative penalty. *)
Definition resolved (path : Path) : Prop :=
  matches path = 1%nat /\ nonNegative path.

(** The stack that the walk builds from [current] on when no resolution
    stops it. *)
Fixpoint ancestorStack (config : Options.t) (limit : Limit) (current : Element)
         (stack : list (list Node.t)) (i : Z) {struct current} : list (list Node.t) :=
  if belowRootParent config current then
    let stack := stack ++ [levelOf config limit current i] in
    match Dom.parentNode current with
    | Some parent =>
        if Dom.nodeType parent =? Dom.ELEMENT_NODE
        then ancestorStack config limit parent stack (i + 1)
        else stack
    | None => stack
    end
  else stack.

(** What the loop of [bottomUpSearch] gives back: a resolved path, or a
    stack of non-negative fragments. *)
Definition walked (o : Outcome (option Path * list (list Node.t))) : Prop :=
  match o with
  | Return (Some path, _) => resolved path
  | Return (None, stack) => Forall nonNegative stack
  | Throw e => oracleError e
  end.

(** The order that [sort] establishes. *)
Definition cheaper (a b : Path) : Prop := penalty a <= penalty b.

(** The number of combinations that a stack implies. *)
Definition count (stack : list (list Node.t)) : nat :=
  length (combinations stack []).

(** The number of element nodes in a run of children. *)
Definition elementsIn (children : list Dom.Child) : nat :=
  length (filter (fun c => Dom.childType c =? Dom.ELEMENT_NODE) children).

(** The fragments of a path carry the levels 0, 1, 2, ... in this order. *)
Definition levelsFromZero (path : Path) : Prop :=
  map Node.level path = map (fun j => Some (Z.of_nat j)) (seq 0 (length path)).

(** Every fragment of the level at index [j] of a stack, counting from
    [start], carries the level [j]. *)
Definition levelledFrom (start : nat) (stack : list (list Node.t)) : Prop :=
  Forall2 (fun j level => Forall (fun f => Node.level f = Some (Z.of_nat j)) level)
          (seq start (length stack)) stack.

(** The stack and the counter [i] of the walk agree. *)
Definition inStep (stack : list (list Node.t)) (i : Z) : Prop :=
  i = Z.of_nat (length stack) /\ levelledFrom 0 stack.

(** A computation that only sends queries: it leaves the [config] slot and
    the queries already sent as they are. *)
Definition extends {A} (m : M A) : Prop :=
  forall w, exists asked, snd (m w) = afterAsking w asked.

(** A path whose first fragment is one of [level]. *)
Definition startsIn (level : list Node.t) (path : Path) : Prop :=
  exists f rest, path = f :: rest /\ In f level.

(** A stack whose first level is [level]. *)
Definition basedOn (level : list Node.t) (stack : list (list Node.t)) (i : Z) : Prop :=
  exists rest, stack = level :: rest.

(** Calling the fallback, when there is one (line 129). *)
Definition orNull (fallback : option (M (option Path))) : M (option Path) :=
  match fallback with
  | Some f => f
  | None => ret None
  end.

End Finder.

(* ================================================================= *)
(** ** The specification's wording of the renderer and of the candidate
       generator, to compare with the program *)

Module Spec.
Section Spec.

Context `{browser : Browser}.

(** Section 4.5: the child combinator joins two fragments when the outer
    level is exactly one more than the inner level, the descendant
    combinator joins them otherwise. *)
Definition combinator (inner outer : Node.t) : string :=
  match Node.level inner, Node.level outer with
  | Some li, Some lo => if lo =? li + 1 then " > " else " "
  | _, _ => " "
  end.

(** The running query starts as the text of the target and every
    consecutive pair (inner, outer) prepends the outer text. *)
Definition rendered (path : Path) : string :=
  match path with
  | [] => EmptyString
  | target :: ancestors =>
      fold_left (fun query pair =>
                   Node.name (snd pair) +++ combinator (fst pair) (snd pair) +++ query)
                (combine path ancestors) (Node.name target)
  end.

(** Section 4.1: the fallback chain, tier by tier. *)
Definition idTier (node : Element) : list Node.t :=
  if String.eqb (Dom.id node) EmptyString then []
  else [Node.mk ("#" +++ cssesc (Dom.id node)) 0 None].

Definition classTier (config : Options.t) (node : Element) : list Node.t :=
  map (fun name => Node.mk ("." +++ cssesc name) 1 None)
      (filter (Options.className config) (Dom.classList node)).

Definition dataTier (config : Options.t) (node : Element) : list Node.t :=
  map (fun attribute : string * string =>
         Node.mk ("[" +++ fst attribute +++ "=" +++ quote +++ snd attribute
                  +++ quote +++ "]") 2 None)
      (filter (fun attribute : string * string =>
                 startsWith (fst attribute) "data-"
                 && Options.dataAttribute config (fst attribute))%bool
              (Dom.attributes node)).

Definition tagTier (config : Options.t) (node : Element) : list Node.t :=
  if Options.tagName config (toLowerCase (Dom.tagName node))
  then [Node.mk (toLowerCase (Dom.tagName node)) 3 None]
  else [].

Definition wildcardTier : list Node.t := [Node.mk "*" 4 None].

(** The first tier of the list that is not empty. *)
Fixpoint firstNonEmpty (tiers : list (list Node.t)) : list Node.t :=
  match tiers with
  | [] => []
  | [] :: others => firstNonEmpty others
  | tier :: _ => tier
  end.

Definition fallbackChain (config : Options.t) (node : Element) : list Node.t :=
  firstNonEmpty [idTier node; classTier config node; dataTier config node;
                 tagTier config node; wildcardTier].

(** Section 4.3: the rank vector of a combination gives, level by level
    from the target outward, the rank of the candidate it takes. *)
Fixpoint pick (stack : list (list Node.t)) (ranks : list nat) : Path :=
  match stack, ranks with
  | level :: stack', rank :: ranks' => nth rank level (Node.mk "*" 4 None) :: pick stack' ranks'
  | _, _ => []
  end.

(** All the rank vectors of a stack. *)
Fixpoint ranks (stack : list (list Node.t)) : list (list nat) :=
  match stack with
  | [] => [[]]
  | level :: stack' =>
      flat_map (fun rank => map (cons rank) (ranks stack')) (seq 0 (length level))
  end.

(** The lexicographic order of rank vectors. *)
Inductive lexLt : list nat -> list nat -> Prop :=
| lexLt_head (r s : nat) (rs ss : list nat) : (r < s)%nat -> lexLt (r :: rs) (s :: ss)
| lexLt_tail (r : nat) (rs ss : list nat) : lexLt rs ss -> lexLt (r :: rs) (r :: ss).

End Spec.
End Spec.

(* ================================================================= *)
(** ** Documents used as concrete inputs *)

Module Fixtures.

Local Open Scope nat_scope.

(** A match engine given by its table; a selector that is not listed
    matches nothing. *)
Definition engine (table : list (string * list nat)) (sel : string) : list nat :=
  match find (fun entry => String.eqb (fst entry) sel) table with
  | Some entry => snd entry
  | None => []
  end.

Definition element (ref : nat) (tag : string) (children : list nat)
           (parent : option Element) : Element :=
  Dom.mkElement ref Dom.ELEMENT_NODE tag EmptyString [] []
                (map (fun r => Dom.mkChild r Dom.ELEMENT_NODE) children) parent.

(** [<html><body><div><p/><p/><p/></div></body></html>] under its
    document node; the references are 0 (document), 1, 2, 3 and 4, 5, 6. *)
Definition documentNode : Element :=
  Dom.mkElement 0 9%Z EmptyString EmptyString [] []
                [Dom.mkChild 1 Dom.ELEMENT_NODE] None.
Definition html : Element := element 1 "HTML" [2] (Some documentNode).
Definition bodyElement : Element := element 2 "BODY" [3] (Some html).
Definition div : Element := element 3 "DIV" [4; 5; 6] (Some bodyElement).
Definition p2 : Element := element 5 "P" [] (Some div).

Definition threeParagraphs : Browser := {|
  cssesc := fun s => s;
  body := bodyElement;
  querySelectorAll := engine
    [ ("html", [1]); ("body", [2]); ("div", [3]);
      ("p", [4; 5; 6]); ("p:nth-child(2)", [5]);
      ("div > p", [4; 5; 6]); ("div > p:nth-child(2)", [5]) ]
|}.

(** The same document without its paragraphs, and a paragraph that was
    created but never attached to any parent. *)
Definition noParagraph : Browser := {|
  cssesc := fun s => s;
  body := bodyElement;
  querySelectorAll := engine [ ("html", [1]); ("body", [2]); ("div", [3]) ]
|}.

Definition detached : Element := element 7 "P" [] None.

(** [<html><body><p/></body></html>]: the only paragraph has reference 4. *)
Definition oneParagraph : Browser := {|
  cssesc := fun s => s;
  body := element 2 "BODY" [4] (Some html);
  querySelectorAll := engine [ ("html", [1]); ("body", [2]); ("p", [4]) ]
|}.

(** [div#x > section > p] next to a [div > section > p] without the id
    (scenario E); the paragraph under [#x] has reference 9. *)
Definition sectionE : Element :=
  element 8 "SECTION" [9]
    (Some (Dom.mkElement 7 Dom.ELEMENT_NODE "DIV" "x" [] []
             [Dom.mkChild 8 Dom.ELEMENT_NODE] (Some bodyElement))).
Definition paragraphE : Element := element 9 "P" [] (Some sectionE).

Definition scenarioE : Browser := {|
  cssesc := fun s => s;
  body := bodyElement;
  querySelectorAll := engine
    [ ("p", [9; 12]); ("p:nth-child(1)", [9; 12]);
      ("section > p", [9; 12]); ("section > p:nth-child(1)", [9; 12]);
      ("section:nth-child(1) > p", [9; 12]);
      ("section:nth-child(1) > p:nth-child(1)", [9; 12]);
      ("#x > section > p", [9]); ("#x p", [9]) ]
|}.

(** A second [html] element, appended to the body of a document. *)
Definition nestedHtml : Browser := {|
  cssesc := fun s => s;
  body := element 2 "BODY" [8] (Some html);
  querySelectorAll := engine [ ("html", [1; 8]); ("body", [2]) ]
|}.

Definition strayHtml : Element :=
  element 8 "HTML" [] (Some (element 2 "BODY" [8] (Some html))).

(** [body > section > div > p] twice; the first paragraph has reference 5,
    the second 8, and the first [div] serves as root. *)
Definition sectionTwo : Element :=
  element 3 "SECTION" [4] (Some (element 2 "BODY" [3; 6] (Some html))).
Definition divTwo : Element := element 4 "DIV" [5] (Some sectionTwo).
Definition paragraphTwo : Element := element 5 "P" [] (Some divTwo).

Definition twoSections : Browser := {|
  cssesc := fun s => s;
  body := element 2 "BODY" [3; 6] (Some html);
  querySelectorAll := engine
    [ ("p", [5; 8]); ("p:nth-child(1)", [5; 8]);
      ("div > p", [5; 8]); ("div:nth-child(1) > p", [5; 8]);
      ("div > p:nth-child(1)", [5; 8]);
      ("div:nth-child(1) > p:nth-child(1)", [5; 8]) ]
|}.

Definition seedFive : option Options.partial :=
  Some (Options.mkPartial None None None None (Some 5%Z) None None).

Definition rootDivTwo : option Options.partial :=
  Some (Options.mkPartial (Some divTwo) None None None None None None).

Definition fresh : World := mkWorld None [].

Definition fragment (name : string) (penalty level : Z) : Node.t :=
  Node.mk name penalty (Some level).

End Fixtures.

(* ================================================================= *)
(** ** Properties *)

Section Properties.

Context `{browser : Browser}.

(** *** The monad *)

Lemma bind_ret {A B} (a : A) (k : A -> M B) (w : World) :
  bind (ret a) k w = k a w.
Proof. reflexivity. Qed.

Lemma bind_Return {A B} (m : M A) (k : A -> M B) (w w' : World) (a : A) :
  m w = (Return a, w') -> bind m k w = k a w'.
Proof. intros E. unfold bind. now rewrite E. Qed.

Lemma bind_Throw {A B} (m : M A) (k : A -> M B) (w w' : World) (e : Error) :
  m w = (Throw e, w') -> bind m k w = (Throw e, w').
Proof. intros E. unfold bind. now rewrite E. Qed.

(** A computation that returned went through a returning first half. *)
Lemma bind_inv {A B} (m : M A) (k : A -> M B) (w w2 : World) (b : B) :
  bind m k w = (Return b, w2) ->
  exists a w1, m w = (Return a, w1) /\ k a w1 = (Return b, w2).
Proof.
  unfold bind. destruct (m w) as [[a|e] w1]; intros E.
  - now exists a, w1.
  - discriminate.
Qed.

(** *** The oracle *)

Lemma selector_cons (node : Node.t) (rest : Path) :
  selector (node :: rest)
  = Return (snd (fold_left selectorStep rest (node, Node.name node))).
Proof. reflexivity. Qed.

(** What [unique] does on a path that renders to [sel]. *)
Lemma unique_run (path : Path) (sel : string) (w : World) :
  selector path = Return sel ->
  unique path w =
    (match length (querySelectorAll sel) with
     | O => Throw (CantSelect sel)
     | S O => Return true
     | _ => Return false
     end,
     mkWorld (config w) (queries w ++ [QueryAll sel])).
Proof.
  intros E. unfold unique, bind, lift, ask. rewrite E.
  destruct (length (querySelectorAll sel)) as [|[|n]]; reflexivity.
Qed.

(** C7. The oracle raises an error exactly when the rendered selector
    matches no node of the document, answers [true] exactly when it
    matches one node, and answers [false], without any error, exactly when
    it matches more than one. *)
Theorem unique_classifies (node : Node.t) (rest : Path) (w : World) :
  exists sel,
    selector (node :: rest) = Return sel /\
    let matches := length (querySelectorAll sel) in
    let answer := fst (unique (node :: rest) w) in
    ((exists e, answer = Throw e) <-> matches = 0%nat) /\
    (answer = Throw (CantSelect sel) <-> matches = 0%nat) /\
    (answer = Return true <-> matches = 1%nat) /\
    (answer = Return false <-> (1 < matches)%nat).
Proof.
  eexists. split; [apply selector_cons|].
  cbv zeta. rewrite (unique_run _ _ w (selector_cons node rest)). cbn [fst].
  destruct (length (querySelectorAll _)) as [|[|n]];
    repeat split; intros H; try discriminate; try lia; try reflexivity;
    try (destruct H; discriminate); eauto.
Qed.

(** *** The entry point on the root element *)

(** C10. On an element whose tag name is [html] in any letter case,
    [generate] returns ["html"] at once: the [config] slot keeps its value,
    no query is sent to the document, whatever the options are, so the
    selector is tested neither for uniqueness nor for identity. *)
Theorem generate_html (input : Element) (options : option Options.partial) (w : World) :
  Dom.nodeType input = Dom.ELEMENT_NODE ->
  toLowerCase (Dom.tagName input) = "html" ->
  generate input options w = (Return "html", w).
Proof.
  intros Helement Htag. unfold generate.
  rewrite Helement, Z.eqb_refl, Htag. reflexivity.
Qed.


(** *** The renderer *)

Lemma selectorStep_rendered (rest : Path) (node : Node.t) (query : string) :
  Forall (fun f => Node.level f <> None) rest ->
  snd (fold_left selectorStep rest (node, query))
  = fold_left (fun query pair =>
                 Node.name (snd pair) +++ Spec.combinator (fst pair) (snd pair) +++ query)
              (combine (node :: rest) rest) query.
Proof.
  revert node query. induction rest as [|outer rest IH]; intros node query Hlevels.
  - reflexivity.
  - inversion Hlevels as [|? ? Houter Hrest]; subst.
    cbn [fold_left combine fst snd].
    rewrite <- (IH outer _ Hrest). f_equal. f_equal.
    unfold selectorStep, Spec.combinator, levelOrZero.
    destruct (Node.level outer) as [lo|]; [|congruence].
    destruct (Node.level node) as [li|].
    + replace (if lo =? 0 then 0 else lo) with lo by (destruct (Z.eqb_spec lo 0); lia).
      destruct (Z.eqb_spec li (lo - 1)), (Z.eqb_spec lo (li + 1)); try lia; reflexivity.
    + reflexivity.
Qed.

(** C8. On a path whose fragments beyond index 0 all carry a level, the
    renderer starts from the text of the target and, going outward, joins
    every consecutive pair with [" > "] exactly when the level of the outer
    fragment is one more than the level of the inner one, and with a space
    otherwise. *)
Theorem selector_rendered (target : Node.t) (ancestors : Path) :
  Forall (fun f => Node.level f <> None) ancestors ->
  selector (target :: ancestors) = Return (Spec.rendered (target :: ancestors)).
Proof.
  intros Hlevels. rewrite selector_cons. f_equal.
  now apply selectorStep_rendered.
Qed.

(** *** The candidates of one element *)

Lemma present_Some {T} (l : list T) : present (filter notEmpty (map Some l)) = l.
Proof. induction l as [|x l IH]; cbn; congruence. Qed.

Lemma maybe_list (l : list Node.t) :
  maybe (map Some l) = match l with [] => None | _ => Some l end.
Proof.
  unfold maybe. rewrite present_Some. now destruct l.
Qed.

Lemma maybe_one (o : option Node.t) :
  maybe [o] = match o with Some n => Some [n] | None => None end.
Proof. now destruct o. Qed.

Lemma firstNonEmpty_cons (tier : list Node.t) (others : list (list Node.t)) :
  Spec.firstNonEmpty (tier :: others)
  = match tier with [] => Spec.firstNonEmpty others | _ => tier end.
Proof. now destruct tier. Qed.

Lemma dataAttributes_tier (config : Options.t) (current : Element) :
  dataAttributes config current = Spec.dataTier config current.
Proof.
  unfold dataAttributes, Spec.dataTier. f_equal.
  apply filter_ext. intros a. apply andb_comm.
Qed.

Lemma candidates_not_nil (config : Options.t) (current : Element) :
  candidates config current <> [].
Proof.
  unfold candidates. rewrite !maybe_one, !maybe_list.
  destruct (id current); [discriminate|].
  destruct (classNames config current); [|discriminate].
  destruct (dataAttributes config current); [|discriminate].
  destruct (tagName config current); discriminate.
Qed.

(** The candidates are the first non-empty tier of the chain. *)
Lemma candidates_chain (config : Options.t) (current : Element) :
  candidates config current = Spec.fallbackChain config current.
Proof.
  unfold candidates, Spec.fallbackChain.
  rewrite !maybe_one, !maybe_list, !firstNonEmpty_cons, dataAttributes_tier.
  unfold id, Spec.idTier.
  destruct (String.eqb (Dom.id current) EmptyString); cbn [negb]; [|reflexivity].
  change (classNames config current) with (Spec.classTier config current).
  destruct (Spec.classTier config current); [|reflexivity].
  destruct (Spec.dataTier config current); [|reflexivity].
  unfold tagName, Spec.tagTier.
  destruct (Options.tagName config (toLowerCase (Dom.tagName current))); reflexivity.
Qed.


(** *** Sibling positions *)

Lemma limited_All (level : list Node.t) (n : nat) :
  (0 < n)%nat -> limited All level (Some n) = withNth level n.
Proof. destruct n; [lia|reflexivity]. Qed.

Lemma limited_Two (level : list Node.t) (n : nat) :
  (0 < n)%nat -> limited Two level (Some n) = withNth (firstn 1 level) n.
Proof. destruct n; [lia|reflexivity]. Qed.

Lemma limited_One (level : list Node.t) (n : nat) :
  (0 < n)%nat ->
  limited One level (Some n)
  = match map (fun node => nthChild node n) (filter dispensableNth (firstn 1 level)) with
    | [] => firstn 1 level
    | _ :: _ => map (fun node => nthChild node n) (filter dispensableNth (firstn 1 level))
    end.
Proof.
  destruct n; [lia|]. intros _. destruct level as [|node level]; [reflexivity|].
  cbn. now destruct (dispensableNth node).
Qed.

(** C4, as the program has it.  When the node has a position [n >= 1]
    among its element siblings, the tier is the candidate list under [All]
    and its first fragment under [Two] and [One]; every fragment of the
    tier whose text is neither ["html"] nor of the form [#...] gives a
    derived fragment, its text followed by [:nth-child(n)] and its penalty
    plus one.  Under [All] and [Two] the derived fragments come after the
    whole tier; under [One] the derived fragment stands in place of the
    tier.  No fragment of the form [#...] is ever derived from. *)
Theorem levelOf_position (config : Options.t) (limit : Limit) (current : Element)
        (i : Z) (n : nat) :
  index current = Some n ->
  (0 < n)%nat ->
  let tier :=
    match limit with
    | All => candidates config current
    | Two | One => firstn 1 (candidates config current)
    end in
  let dispensable node :=
    (negb (String.eqb (Node.name node) "html")
     && negb (startsWith (Node.name node) "#"))%bool in
  let derived node :=
    Node.mk (Node.name node +++ ":nth-child(" +++ decimal n +++ ")")
            (Node.penalty node + 1) None in
  let augmented := map derived (filter dispensable tier) in
  levelOf config limit current i
  = map (setLevel i)
        match limit with
        | All | Two => tier ++ augmented
        | One => match augmented with [] => tier | _ => augmented end
        end.
Proof.
  intros Hindex Hn. cbv zeta. unfold levelOf. rewrite Hindex. f_equal.
  destruct limit.
  - now apply limited_All.
  - now apply limited_Two.
  - now apply limited_One.
Qed.

(** *** Sorting by penalty *)

Lemma insert_perm (p : Path) (sorted : list Path) :
  Permutation (insert p sorted) (p :: sorted).
Proof.
  induction sorted as [|q rest IH]; cbn; [reflexivity|].
  destruct (compare q p <? 0); [|reflexivity].
  rewrite IH. apply perm_swap.
Qed.

Lemma sort_perm (paths : list Path) : Permutation (sort paths) paths.
Proof.
  induction paths as [|p paths IH]; cbn; [reflexivity|].
  rewrite insert_perm. now constructor.
Qed.

Lemma sort_length (paths : list Path) : length (sort paths) = length paths.
Proof. apply Permutation_length, sort_perm. Qed.

Lemma sort_In (paths : list Path) (p : Path) : In p (sort paths) <-> In p paths.
Proof.
  split; apply Permutation_in; [|symmetry]; apply sort_perm.
Qed.

Lemma insert_sorted (p : Path) (sorted : list Path) :
  StronglySorted cheaper sorted -> StronglySorted cheaper (insert p sorted).
Proof.
  induction 1 as [|q rest Hsorted IH Hq]; cbn.
  - repeat constructor.
  - unfold compare. destruct (Z.ltb_spec (penalty q - penalty p) 0) as [Hlt|Hge].
    + constructor; [exact IH|].
      rewrite Forall_forall in *. intros x Hx.
      apply (Permutation_in _ (insert_perm p rest)) in Hx.
      destruct Hx as [<-|Hx]; [unfold cheaper; lia | now apply Hq].
    + constructor; [now constructor|].
      constructor; [unfold cheaper; lia|].
      rewrite Forall_forall in *. intros x Hx.
      specialize (Hq x Hx). unfold cheaper in *. lia.
Qed.

Lemma sort_sorted (paths : list Path) : StronglySorted cheaper (sort paths).
Proof.
  induction paths as [|p paths IH]; cbn; [constructor | now apply insert_sorted].
Qed.

(** Stability: among the paths of one penalty, the order is the one they
    came in. *)
Lemma insert_stable (v : Z) (p : Path) (sorted : list Path) :
  filter (fun c => penalty c =? v) (insert p sorted)
  = filter (fun c => penalty c =? v) (p :: sorted).
Proof.
  induction sorted as [|q rest IH]; [reflexivity|].
  cbn [insert]. unfold compare.
  destruct (Z.ltb_spec (penalty q - penalty p) 0) as [Hlt|Hge]; [|reflexivity].
  cbn [filter] in *. rewrite IH.
  destruct (Z.eqb_spec (penalty p) v), (Z.eqb_spec (penalty q) v); try reflexivity; lia.
Qed.

Lemma sort_stable (v : Z) (paths : list Path) :
  filter (fun c => penalty c =? v) (sort paths)
  = filter (fun c => penalty c =? v) paths.
Proof.
  induction paths as [|p paths IH]; [reflexivity|].
  cbn [sort fold_right]. rewrite insert_stable. cbn [filter].
  fold (sort paths). now rewrite IH.
Qed.

(** *** The order in which combinations are generated *)

Lemma map_flat_map {A B C} (f : B -> C) (g : A -> list B) (l : list A) :
  map f (flat_map g l) = flat_map (fun x => map f (g x)) l.
Proof.
  induction l as [|x l IH]; [reflexivity|].
  cbn. now rewrite map_app, IH.
Qed.

Lemma flat_map_after_map {A B C} (f : B -> list C) (g : A -> B) (l : list A) :
  flat_map f (map g l) = flat_map (fun x => f (g x)) l.
Proof.
  induction l as [|x l IH]; [reflexivity|]. cbn. now rewrite IH.
Qed.

Lemma flat_map_nth {A B} (g : A -> list B) (d : A) (l : list A) :
  flat_map g l = flat_map (fun rank => g (nth rank l d)) (seq 0 (length l)).
Proof.
  induction l as [|x l IH]; [reflexivity|].
  cbn [length seq flat_map nth]. f_equal.
  rewrite <- seq_shift, flat_map_after_map. exact IH.
Qed.

(** The accumulator [path] is a prefix of every combination. *)
Lemma combinations_prefix (stack : list (list Node.t)) (path : Path) :
  combinations stack path = map (app path) (combinations stack []).
Proof.
  revert path. induction stack as [|level stack IH]; intros path.
  - cbn. now rewrite app_nil_r.
  - cbn [combinations]. rewrite map_flat_map.
    apply flat_map_ext. intros node.
    rewrite (IH (path ++ [node])), (IH ([] ++ [node])), map_map.
    apply map_ext. intros c. now rewrite <- app_assoc.
Qed.

Lemma combinations_cons (level : list Node.t) (stack : list (list Node.t)) :
  combinations (level :: stack) []
  = flat_map (fun node => map (cons node) (combinations stack [])) level.
Proof.
  cbn [combinations]. apply flat_map_ext. intros node.
  now rewrite combinations_prefix.
Qed.

(** The combinations are the picks of the rank vectors, in the order of
    [Spec.ranks]. *)
Lemma combinations_ranks (stack : list (list Node.t)) :
  combinations stack [] = map (Spec.pick stack) (Spec.ranks stack).
Proof.
  induction stack as [|level stack IH]; [reflexivity|].
  rewrite combinations_cons. cbn [Spec.ranks].
  rewrite map_flat_map, (flat_map_nth _ (Node.mk "*" 4 None)).
  apply flat_map_ext. intros rank.
  rewrite IH, !map_map. reflexivity.
Qed.

Lemma StronglySorted_app {A} (R : A -> A -> Prop) (l1 l2 : list A) :
  StronglySorted R l1 -> StronglySorted R l2 ->
  (forall x y, In x l1 -> In y l2 -> R x y) ->
  StronglySorted R (l1 ++ l2).
Proof.
  induction 1 as [|x l1 H1 IH Hx]; intros H2 Hcross; [exact H2|].
  cbn. constructor.
  - apply IH; [exact H2|]. intros a b Ha Hb. apply Hcross; [now right|exact Hb].
  - apply Forall_app. split; [exact Hx|].
    apply Forall_forall. intros y Hy. apply Hcross; [now left|exact Hy].
Qed.

Lemma StronglySorted_map_cons (rank : nat) (vectors : list (list nat)) :
  StronglySorted Spec.lexLt vectors ->
  StronglySorted Spec.lexLt (map (cons rank) vectors).
Proof.
  induction 1 as [|v vectors Hsorted IH Hv]; cbn; constructor; [exact IH|].
  rewrite Forall_forall in *. intros x Hx.
  apply in_map_iff in Hx as (y & <- & Hy).
  apply Spec.lexLt_tail. now apply Hv.
Qed.

Lemma ranks_blocks_sorted (vectors : list (list nat)) (len start : nat) :
  StronglySorted Spec.lexLt vectors ->
  StronglySorted Spec.lexLt
    (flat_map (fun rank => map (cons rank) vectors) (seq start len)).
Proof.
  intros Hsorted. revert start.
  induction len as [|len IH]; intros start; cbn; [constructor|].
  apply StronglySorted_app.
  - now apply StronglySorted_map_cons.
  - apply IH.
  - intros x y Hx Hy.
    apply in_map_iff in Hx as (x' & <- & _).
    apply in_flat_map in Hy as (rank & Hrank & Hy).
    apply in_map_iff in Hy as (y' & <- & _).
    apply in_seq in Hrank. apply Spec.lexLt_head. lia.
Qed.

(** The rank vectors are listed in strictly increasing lexicographic
    order, the level of the target being the most significant. *)
Lemma ranks_sorted (stack : list (list Node.t)) :
  StronglySorted Spec.lexLt (Spec.ranks stack).
Proof.
  induction stack as [|level stack IH]; cbn.
  - repeat constructor.
  - now apply ranks_blocks_sorted.
Qed.

(** Every rank vector that stays inside the levels is listed. *)
Lemma ranks_complete (stack : list (list Node.t)) (vector : list nat) :
  In vector (Spec.ranks stack)
  <-> Forall2 (fun rank level => (rank < length level)%nat) vector stack.
Proof.
  revert vector. induction stack as [|level stack IH]; intros vector; cbn.
  - split.
    + intros [<-|[]]. constructor.
    + intros H. inversion H. now left.
  - rewrite in_flat_map. split.
    + intros (rank & Hrank & Hv).
      apply in_map_iff in Hv as (rest & <- & Hrest).
      apply in_seq in Hrank. constructor; [lia | now apply IH].
    + intros H. inversion H as [|rank ? rest ? Hrank Hrest]; subst.
      exists rank. split; [apply in_seq; lia|].
      apply in_map. now apply IH.
Qed.

(** *** Resolving a stack *)

Lemma afterAsking_nil (w : World) : afterAsking w [] = w.
Proof. destruct w. unfold afterAsking. cbn. now rewrite app_nil_r. Qed.

Lemma afterAsking_app (w : World) (a b : list Query) :
  afterAsking (afterAsking w a) b = afterAsking w (a ++ b).
Proof. unfold afterAsking. cbn. now rewrite app_assoc. Qed.

Lemma findUniquePath_unfold (config : Options.t) (stack : list (list Node.t))
      (fallback : option (M (option Path))) :
  findUniquePath config stack fallback
  = if Options.threshold config <? Z.of_nat (length (combinations stack []))
    then orNull fallback
    else firstUnique (sort (combinations stack [])).
Proof. unfold findUniquePath. now rewrite sort_length. Qed.

Lemma matches_renders (c : Path) :
  (0 < matches c)%nat -> selector c = Return (text c).
Proof.
  unfold matches, text. destruct (selector c); [reflexivity|lia].
Qed.

Lemma nonempty_renders (c : Path) : c <> [] -> selector c = Return (text c).
Proof. destruct c; [congruence|reflexivity]. Qed.

Lemma unique_of_matches (c : Path) (w : World) :
  selector c = Return (text c) ->
  unique c w =
    (match matches c with
     | O => Throw (CantSelect (text c))
     | S O => Return true
     | _ => Return false
     end,
     afterAsking w (tests [c])).
Proof.
  intros E. rewrite (unique_run c (text c) w E).
  unfold matches. now rewrite E.
Qed.

Lemma firstUnique_found (c : Path) (rest : list Path) (w : World) :
  matches c = 1%nat ->
  firstUnique (c :: rest) w = (Return (Some c), afterAsking w (tests [c])).
Proof.
  intros H. cbn [firstUnique]. unfold bind.
  rewrite unique_of_matches by (apply matches_renders; lia).
  now rewrite H.
Qed.

Lemma firstUnique_violation (c : Path) (rest : list Path) (w : World) :
  c <> [] -> matches c = 0%nat ->
  firstUnique (c :: rest) w
  = (Throw (CantSelect (text c)), afterAsking w (tests [c])).
Proof.
  intros Hc H. cbn [firstUnique]. unfold bind.
  rewrite (unique_of_matches c w (nonempty_renders c Hc)). now rewrite H.
Qed.

Lemma firstUnique_skip (before rest : list Path) (w : World) :
  Forall (fun c => (1 < matches c)%nat) before ->
  firstUnique (before ++ rest) w = firstUnique rest (afterAsking w (tests before)).
Proof.
  intros H. revert w. induction H as [|c before Hc Hbefore IH]; intros w.
  - cbn. now rewrite afterAsking_nil.
  - cbn [app firstUnique]. unfold bind.
    rewrite unique_of_matches by (apply matches_renders; lia).
    destruct (matches c) as [|[|n]]; try lia.
    rewrite IH, afterAsking_app. reflexivity.
Qed.

(** The loop sends at most one query per path, each for a path of the
    list, and nothing else changes. *)
Lemma firstUnique_asked (paths : list Path) (w : World) :
  exists asked,
    snd (firstUnique paths w) = afterAsking w asked /\
    (length asked <= length paths)%nat /\
    Forall (fun q => exists c, In c paths /\ q = QueryAll (text c)) asked.
Proof.
  revert w. induction paths as [|c paths IH]; intros w.
  - exists []. cbn. rewrite afterAsking_nil. repeat split; [lia|constructor].
  - cbn [firstUnique]. destruct c as [|node c'] eqn:Ec.
    + exists []. cbn. rewrite afterAsking_nil. repeat split; [lia|constructor].
    + rewrite <- Ec.
      assert (Hsel : selector c = Return (text c))
        by (apply nonempty_renders; congruence).
      unfold bind. rewrite (unique_of_matches c w Hsel).
      destruct (matches c) as [|[|n]].
      * exists (tests [c]). cbn. repeat split; [lia|].
        constructor; [|constructor]. exists c. split; [now left|reflexivity].
      * exists (tests [c]). cbn. repeat split; [lia|].
        constructor; [|constructor]. exists c. split; [now left|reflexivity].
      * destruct (IH (afterAsking w (tests [c]))) as (asked & Hw & Hlen & Hall).
        exists (tests [c] ++ asked). rewrite Hw, afterAsking_app.
        repeat split; [cbn; lia|].
        constructor.
        -- exists c. split; [now left|reflexivity].
        -- eapply Forall_impl; [|exact Hall].
           intros q (c0 & Hin & ->). exists c0. split; [now right|reflexivity].
Qed.

(** C6. When the stack implies more combinations than the threshold, the
    resolution is the call of the fallback (or [null]) in the world it
    started in: it sends no query of its own.  Otherwise it sends at most
    [threshold] queries, each one a uniqueness test of a combination of the
    stack. *)
Theorem findUniquePath_budget (config : Options.t) (stack : list (list Node.t))
        (fallback : option (M (option Path))) (w : World) :
  let generated := combinations stack [] in
  if Options.threshold config <? Z.of_nat (length generated)
  then findUniquePath config stack fallback w = orNull fallback w
  else exists asked,
      snd (findUniquePath config stack fallback w) = afterAsking w asked /\
      Z.of_nat (length asked) <= Options.threshold config /\
      Forall (fun q => exists c, In c generated /\ q = QueryAll (text c)) asked.
Proof.
  cbv zeta. rewrite findUniquePath_unfold.
  destruct (Z.ltb_spec (Options.threshold config)
                       (Z.of_nat (length (combinations stack [])))) as [Hover|Hfits].
  - reflexivity.
  - destruct (firstUnique_asked (sort (combinations stack [])) w)
      as (asked & Hw & Hlen & Hall).
    exists asked. rewrite sort_length in Hlen. repeat split; [exact Hw|lia|].
    eapply Forall_impl; [|exact Hall].
    intros q (c & Hin & ->). exists c. split; [now apply sort_In|reflexivity].
Qed.

(** C5, as the program has it.  When the combinations fit the threshold
    they are generated in the lexicographic order of their rank vectors
    (target level first), sorted by ascending total penalty with ties left
    in the order of generation, and tested in that order.  A combination
    matching exactly one node, reached after combinations that all match
    several nodes, is returned; when every combination matches several
    nodes the result is [null], without error; a combination matching no
    node, reached in the same way, makes the error of the oracle the
    outcome. *)
Theorem findUniquePath_order (config : Options.t) (stack : list (list Node.t))
        (fallback : option (M (option Path))) (w : World) :
  let generated := combinations stack [] in
  let paths := sort generated in
  Z.of_nat (length generated) <= Options.threshold config ->
  (generated = map (Spec.pick stack) (Spec.ranks stack) /\
   StronglySorted Spec.lexLt (Spec.ranks stack)) /\
  (Permutation paths generated /\
   StronglySorted (fun a b => penalty a <= penalty b) paths /\
   forall v, filter (fun c => penalty c =? v) paths
             = filter (fun c => penalty c =? v) generated) /\
  (forall before candidate after,
      paths = before ++ candidate :: after ->
      Forall (fun c => (1 < matches c)%nat) before ->
      (matches candidate = 1%nat ->
       findUniquePath config stack fallback w
       = (Return (Some candidate), afterAsking w (tests (before ++ [candidate])))) /\
      (candidate <> [] -> matches candidate = 0%nat ->
       findUniquePath config stack fallback w
       = (Throw (CantSelect (text candidate)),
          afterAsking w (tests (before ++ [candidate]))))) /\
  (Forall (fun c => (1 < matches c)%nat) paths ->
   findUniquePath config stack fallback w = (Return None, afterAsking w (tests paths))).
Proof.
  cbv zeta. intros Hfits.
  assert (Hrun : findUniquePath config stack fallback
                 = firstUnique (sort (combinations stack []))).
  { rewrite findUniquePath_unfold.
    destruct (Z.ltb_spec (Options.threshold config)
                         (Z.of_nat (length (combinations stack [])))); [lia|reflexivity]. }
  split; [split; [apply combinations_ranks | apply ranks_sorted]|].
  split; [split; [apply sort_perm | split; [apply sort_sorted | intros v; apply sort_stable]]|].
  rewrite Hrun. split.
  - intros before candidate after -> Hbefore. unfold tests.
    rewrite map_app, <- afterAsking_app. fold (tests before). fold (tests [candidate]).
    split.
    + intros Hone. rewrite firstUnique_skip by exact Hbefore.
      now apply firstUnique_found.
    + intros Hc Hzero. rewrite firstUnique_skip by exact Hbefore.
      now apply firstUnique_violation.
  - intros Hall.
    rewrite <- (app_nil_r (sort (combinations stack []))) at 1.
    now rewrite firstUnique_skip.
Qed.

(** *** Outcomes *)

Lemma ensures_bind {A B} (m : M A) (k : A -> M B)
      (Q1 : Outcome A -> Prop) (Q2 : Outcome B -> Prop) :
  ensures m Q1 ->
  (forall a, Q1 (Return a) -> ensures (k a) Q2) ->
  (forall e, Q1 (Throw e) -> Q2 (Throw e)) ->
  ensures (bind m k) Q2.
Proof.
  intros Hm Hk He w. unfold bind. specialize (Hm w).
  destruct (m w) as [[a|e] w1]; cbn [fst] in *.
  - now apply Hk.
  - now apply He.
Qed.

Lemma ensures_ret {A} (a : A) (Q : Outcome A -> Prop) : Q (Return a) -> ensures (ret a) Q.
Proof. intros H w. exact H. Qed.

Lemma ensures_throw {A} (e : Error) (Q : Outcome A -> Prop) :
  Q (Throw e) -> ensures (throw e) Q.
Proof. intros H w. exact H. Qed.

Lemma ensures_weaken {A} (m : M A) (Q1 Q2 : Outcome A -> Prop) :
  ensures m Q1 -> (forall o, Q1 o -> Q2 o) -> ensures m Q2.
Proof. intros Hm H w. apply H, Hm. Qed.

Lemma ensures_run {A} (m : M A) (Q : Outcome A -> Prop) (w w' : World) (o : Outcome A) :
  ensures m Q -> m w = (o, w') -> Q o.
Proof. intros Hm E. specialize (Hm w). now rewrite E in Hm. Qed.

(** [unique] answers [true] on one match only and raises oracle errors
    only. *)
Lemma unique_ensures (c : Path) :
  ensures (unique c)
          (fun o => match o with
                    | Return true => matches c = 1%nat
                    | Return false => True
                    | Throw e => oracleError e
                    end).
Proof.
  intros w. destruct c as [|node c'] eqn:Ec.
  - cbn. now left.
  - rewrite <- Ec.
    rewrite unique_of_matches by (apply nonempty_renders; congruence).
    cbn [fst]. destruct (matches c) as [|[|n]]; try exact I; try reflexivity.
    right. eauto.
Qed.

(** [same] answers [true] only when the first match is the input. *)
Lemma same_ensures (c : Path) (input : Element) :
  ensures (same c input)
          (fun o => match o with
                    | Return true => querySelector (text c) = Some (Dom.ref input)
                    | Return false => True
                    | Throw e => oracleError e
                    end).
Proof.
  intros w. unfold same, bind, lift, ask, ret, text.
  destruct (selector c) as [sel|e] eqn:E; cbn [fst].
  - destruct (querySelector sel) as [r|]; [|exact I].
    destruct (Nat.eqb_spec r (Dom.ref input)); [now subst|exact I].
  - destruct c; [|discriminate]. cbn in E. injection E as <-. now left.
Qed.

Lemma one_match_first (sel : string) (r : nat) :
  length (querySelectorAll sel) = 1%nat ->
  querySelector sel = Some r ->
  querySelectorAll sel = [r].
Proof.
  unfold querySelector. destruct (querySelectorAll sel) as [|x [|y l]]; cbn;
    intros Hlen Hhd; try discriminate. now injection Hhd as ->.
Qed.

(** *** Penalties *)

Lemma fold_left_add (l : list Z) (a : Z) :
  fold_left (fun acc i => acc + i) l a = a + fold_left (fun acc i => acc + i) l 0.
Proof.
  revert a. induction l as [|x l IH]; intros a; cbn; [lia|].
  rewrite (IH (a + x)), (IH x). lia.
Qed.

Lemma penalty_cons (f : Node.t) (path : Path) :
  penalty (f :: path) = Node.penalty f + penalty path.
Proof. unfold penalty. cbn. now rewrite fold_left_add. Qed.

Lemma penalty_nonneg (path : Path) : nonNegative path -> 0 <= penalty path.
Proof.
  induction 1 as [|f path Hf Hpath IH]; [reflexivity|].
  rewrite penalty_cons. lia.
Qed.

(** Taking a fragment out does not raise the cost. *)
Lemma penalty_without (path : Path) (i : nat) :
  nonNegative path ->
  penalty (without path i) <= penalty path /\ nonNegative (without path i).
Proof.
  intros H. revert i. induction H as [|f path Hf Hpath IH]; intros i.
  - destruct i; cbn; split; (reflexivity || constructor).
  - cbn beta in Hf. destruct i as [|i].
    + unfold without. cbn [firstn skipn app]. rewrite penalty_cons.
      split; [lia|exact Hpath].
    + unfold without in *. rewrite firstn_cons, skipn_cons. cbn [app].
      destruct (IH i) as [Hle Hnn]. rewrite !penalty_cons.
      split; [lia | now constructor].
Qed.

(** *** The minimizer *)

Lemma forEach_ensures {A B} (xs : list A) (body : A -> M (list B)) (P : B -> Prop) :
  (forall x, In x xs -> ensures (body x) (collects P)) ->
  ensures (forEach xs body) (collects P).
Proof.
  induction xs as [|x xs IH]; intros Hbody.
  - apply ensures_ret. constructor.
  - cbn [forEach].
    eapply ensures_bind; [apply Hbody; now left | | intros e He; exact He].
    intros ys Hys.
    eapply ensures_bind; [apply IH; intros y Hy; apply Hbody; now right | |
                          intros e He; exact He].
    intros zs Hzs. apply ensures_ret. cbn in *. now apply Forall_app.
Qed.

(** Every path that [optimize] yields passed both tests, and costs no more
    than the path it was cut from when no fragment has a negative penalty. *)
Lemma optimizeFuel_ensures (fuel : nat) (config : Options.t) (path : Path) (input : Element) :
  ensures (optimizeFuel fuel config path input)
          (collects (fun c =>
             querySelectorAll (text c) = [Dom.ref input] /\
             (nonNegative path -> penalty c <= penalty path /\ nonNegative c))).
Proof.
  revert path. induction fuel as [|fuel IH]; intros path.
  - apply ensures_ret. constructor.
  - cbn [optimizeFuel].
    destruct (_ && _)%bool; [|apply ensures_ret; constructor].
    apply forEach_ensures. intros i _. cbv zeta.
    eapply ensures_bind; [apply unique_ensures | | intros e He; exact He].
    intros [|] Hunique.
    + eapply ensures_bind; [apply same_ensures | | intros e He; exact He].
      intros [|] Hsame; [|apply ensures_ret; constructor].
      eapply ensures_bind; [apply IH | | intros e He; exact He].
      intros rest Hrest. apply ensures_ret. cbn in *. constructor.
      * split.
        -- apply one_match_first; [|exact Hsame].
           unfold matches, text in *. now destruct (selector (without path i)).
        -- intros Hnn. now apply penalty_without.
      * eapply Forall_impl; [|exact Hrest].
        intros c [Hc Hcost]. split; [exact Hc|].
        intros Hnn. destruct (penalty_without path i Hnn) as [Hle Hnn'].
        destruct (Hcost Hnn') as [Hle' Hc']. split; [lia|exact Hc'].
    + apply (ensures_bind _ _ (fun o => o = Return false)).
      * now apply ensures_ret.
      * intros s [= ->]. apply ensures_ret. constructor.
      * intros e [=].
Qed.

Lemma without_length (path : Path) (i : nat) :
  (i < length path)%nat -> length (without path i) = (length path - 1)%nat.
Proof.
  intros Hi. unfold without.
  rewrite length_app, firstn_length_le, length_skipn by lia. lia.
Qed.

Lemma bind_ext {A B} (m : M A) (k1 k2 : A -> M B) (w : World) :
  (forall a w', k1 a w' = k2 a w') -> bind m k1 w = bind m k2 w.
Proof.
  intros H. unfold bind. destruct (m w) as [[a|e] w1]; [apply H|reflexivity].
Qed.

Lemma forEach_ext {A B} (xs : list A) (body1 body2 : A -> M (list B)) (w : World) :
  (forall x w', In x xs -> body1 x w' = body2 x w') ->
  forEach xs body1 w = forEach xs body2 w.
Proof.
  revert w. induction xs as [|x xs IH]; intros w H; [reflexivity|].
  cbn [forEach]. unfold bind. rewrite (H x w) by now left.
  destruct (body2 x w) as [[ys|e] w1]; [|reflexivity].
  rewrite IH; [reflexivity|]. intros y w' Hy. apply H. now right.
Qed.

(** Any fuel that covers the length of the path gives the same run: the
    calls of [optimize] stop by themselves, on paths of two fragments. *)
Lemma optimizeFuel_enough (fuel1 fuel2 : nat) (config : Options.t) (path : Path)
      (input : Element) (w : World) :
  (length path <= fuel1)%nat -> (length path <= fuel2)%nat ->
  optimizeFuel fuel1 config path input w = optimizeFuel fuel2 config path input w.
Proof.
  revert fuel2 path w. induction fuel1 as [|fuel1 IH]; intros fuel2 path w H1 H2.
  - destruct path; [|cbn in H1; lia]. now destruct fuel2.
  - destruct fuel2 as [|fuel2].
    + destruct path; [reflexivity|cbn in H2; lia].
    + cbn [optimizeFuel].
      destruct (_ && _)%bool; [|reflexivity].
      apply forEach_ext. intros i w' Hi. apply in_seq in Hi. cbv zeta.
      apply bind_ext. intros u w1. apply bind_ext. intros s w2.
      destruct s; [|reflexivity].
      unfold bind. rewrite (IH fuel2); [reflexivity| |];
        rewrite without_length; lia.
Qed.

Lemma optimize_ensures (config : Options.t) (path : Path) (input : Element) :
  ensures (optimize config path input)
          (collects (fun c =>
             querySelectorAll (text c) = [Dom.ref input] /\
             (nonNegative path -> penalty c <= penalty path /\ nonNegative c))).
Proof. apply optimizeFuel_ensures. Qed.

(** The head of a sorted list is one of the paths and the cheapest. *)
Lemma sort_head (paths : list Path) :
  match sort paths with
  | [] => paths = []
  | best :: _ => In best paths /\ Forall (fun c => penalty best <= penalty c) paths
  end.
Proof.
  pose proof (sort_sorted paths) as Hsorted.
  pose proof (sort_perm paths) as Hperm.
  destruct (sort paths) as [|best rest].
  - now apply Permutation_nil in Hperm.
  - split; [apply (Permutation_in _ Hperm); now left|].
    inversion Hsorted as [|? ? _ Hbest]; subst.
    apply Forall_forall. intros c Hc.
    apply (Permutation_in _ (Permutation_sym Hperm)) in Hc.
    destruct Hc as [<-|Hc]; [lia|].
    rewrite Forall_forall in Hbest. now apply Hbest.
Qed.

(** C9. The path that the minimizer selects, the cheapest of all the paths
    accepted in the whole process or else the given path itself, costs no
    more than the given path (whose fragments have non-negative penalties,
    as all the fragments of the search have). *)
Theorem minimized_monotone (config : Options.t) (path : Path) (input : Element)
        (w w' : World) (best : Path) :
  nonNegative path ->
  minimized config path input w = (Return best, w') ->
  penalty best <= penalty path /\
  exists accepted,
    optimize config path input w = (Return accepted, w') /\
    match accepted with
    | [] => best = path
    | _ :: _ => In best accepted /\ Forall (fun c => penalty best <= penalty c) accepted
    end.
Proof.
  intros Hnn Hrun. unfold minimized in Hrun.
  apply bind_inv in Hrun as (accepted & w1 & Hopt & Hret).
  unfold ret in Hret. injection Hret as Hbest <-.
  pose proof (ensures_run _ _ _ _ _ (optimize_ensures config path input) Hopt) as Hall.
  cbn in Hall. pose proof (sort_head accepted) as Hhead.
  destruct (sort accepted) as [|first rest]; subst best.
  - subst accepted. split; [lia|]. exists []. now split.
  - destruct Hhead as [Hin Hmin]. split.
    + rewrite Forall_forall in Hall. now apply Hall.
    + exists accepted. split; [exact Hopt|].
      destruct accepted; [destruct Hin | now split].
Qed.

(** *** The fragments of the search *)

Lemma candidates_nonNegative (config : Options.t) (current : Element) :
  nonNegative (candidates config current).
Proof.
  rewrite candidates_chain. unfold Spec.fallbackChain. rewrite !firstNonEmpty_cons.
  assert (Hid : nonNegative (Spec.idTier current)).
  { unfold Spec.idTier. destruct (String.eqb _ _); repeat constructor. cbn. lia. }
  assert (Hclass : nonNegative (Spec.classTier config current)).
  { unfold Spec.classTier. apply Forall_map, Forall_forall. intros; cbn; lia. }
  assert (Hdata : nonNegative (Spec.dataTier config current)).
  { unfold Spec.dataTier. apply Forall_map, Forall_forall. intros; cbn; lia. }
  assert (Htag : nonNegative (Spec.tagTier config current)).
  { unfold Spec.tagTier. destruct (Options.tagName _ _); repeat constructor. cbn. lia. }
  destruct (Spec.idTier current); [|exact Hid].
  destruct (Spec.classTier config current); [|exact Hclass].
  destruct (Spec.dataTier config current); [|exact Hdata].
  destruct (Spec.tagTier config current); [|exact Htag].
  repeat constructor. cbn. lia.
Qed.

Lemma withNth_nonNegative (level : list Node.t) (n : nat) :
  nonNegative level -> nonNegative (withNth level n).
Proof.
  intros H. unfold withNth. apply Forall_app. split; [exact H|].
  apply Forall_map, Forall_forall. intros node Hnode.
  apply filter_In in Hnode as [Hnode _].
  unfold nonNegative in H. rewrite Forall_forall in H.
  specialize (H node Hnode). cbn in *. lia.
Qed.

Lemma firstn_nonNegative (k : nat) (level : list Node.t) :
  nonNegative level -> nonNegative (firstn k level).
Proof.
  intros H. unfold nonNegative in *.
  rewrite <- (firstn_skipn k level) in H. now apply Forall_app in H.
Qed.

Lemma limited_nonNegative (limit : Limit) (level : list Node.t) (nth : option nat) :
  nonNegative level -> nonNegative (limited limit level nth).
Proof.
  intros H. destruct limit; cbn [limited].
  - destruct nth as [[|n]|]; auto using withNth_nonNegative.
  - destruct nth as [[|n]|];
      auto using withNth_nonNegative, firstn_nonNegative.
  - pose proof (firstn_nonNegative 1 level H) as H1.
    destruct (firstn 1 level) as [|node rest]; [constructor|].
    destruct nth as [[|n]|]; try exact H1.
    destruct (dispensableNth node); [|exact H1].
    inversion H1; subst. repeat constructor. cbn in *. lia.
Qed.

Lemma levelOf_nonNegative (config : Options.t) (limit : Limit) (current : Element) (i : Z) :
  nonNegative (levelOf config limit current i).
Proof.
  unfold levelOf. apply Forall_map.
  eapply Forall_impl; [|apply limited_nonNegative, candidates_nonNegative].
  intros node H. exact H.
Qed.

Lemma limited_not_nil (limit : Limit) (level : list Node.t) (nth : option nat) :
  level <> [] -> limited limit level nth <> [].
Proof.
  intros H. destruct level as [|node level]; [congruence|].
  destruct limit; cbn.
  - destruct nth as [[|n]|]; discriminate.
  - destruct nth as [[|n]|]; discriminate.
  - destruct nth as [[|n]|]; try discriminate.
    destruct (dispensableNth node); discriminate.
Qed.

Lemma levelOf_not_nil (config : Options.t) (limit : Limit) (current : Element) (i : Z) :
  levelOf config limit current i <> [].
Proof.
  unfold levelOf. intros H. apply map_eq_nil in H.
  revert H. apply limited_not_nil, candidates_not_nil.
Qed.

Lemma combinations_nonNegative (stack : list (list Node.t)) :
  Forall nonNegative stack -> Forall nonNegative (combinations stack []).
Proof.
  induction 1 as [|level stack Hlevel Hstack IH].
  - repeat constructor.
  - rewrite combinations_cons. apply Forall_forall. intros c Hc.
    apply in_flat_map in Hc as (node & Hnode & Hc).
    apply in_map_iff in Hc as (c' & <- & Hc').
    unfold nonNegative in *. rewrite Forall_forall in Hlevel, IH.
    constructor; [now apply Hlevel | now apply IH].
Qed.

(** *** The walk up the ancestors *)

(** Induction along the chain of parents. *)
Lemma Element_parent_ind (P : Element -> Prop) :
  (forall e, (forall p, Dom.parentNode e = Some p -> P p) -> P e) ->
  forall e, P e.
Proof.
  intros step. fix IH 1. intros [r nt tn i cl att cn parent].
  apply step. cbn. intros p Hp.
  destruct parent as [q|]; [|discriminate].
  injection Hp as <-. apply IH.
Qed.

Lemma parentElement_parentNode (e p : Element) :
  Dom.parentElement e = Some p -> Dom.parentNode e = Some p.
Proof.
  unfold Dom.parentElement. destruct (Dom.parentNode e) as [q|]; [|discriminate].
  destruct (Dom.nodeType q =? Dom.ELEMENT_NODE); [trivial|discriminate].
Qed.

(** The loop, with its step written as in the source. *)
Lemma walk_unfold (config : Options.t) (limit : Limit) (fallback : option (M (option Path)))
      (current : Element) (stack : list (list Node.t)) (i : Z) :
  walk config limit fallback current stack i
  = if belowRootParent config current then
      let stack := stack ++ [levelOf config limit current i] in
      path <- (if Options.seedMinLength config <=? Z.of_nat (length stack)
               then findUniquePath config stack fallback
               else ret None) ;;
      match path with
      | Some _ => ret (path, stack)
      | None =>
          match Dom.parentElement current with
          | Some parent => walk config limit fallback parent stack (i + 1)
          | None => ret (None, stack)
          end
      end
    else ret (None, stack).
Proof.
  destruct current as [r nt tn i0 cl att cn parent]. cbn [walk].
  unfold Dom.parentElement. cbn [Dom.parentNode].
  destruct parent as [q|]; [|reflexivity].
  destruct (Dom.nodeType q =? Dom.ELEMENT_NODE); reflexivity.
Qed.

Lemma ancestorStack_unfold (config : Options.t) (limit : Limit) (current : Element)
      (stack : list (list Node.t)) (i : Z) :
  ancestorStack config limit current stack i
  = if belowRootParent config current then
      let stack := stack ++ [levelOf config limit current i] in
      match Dom.parentElement current with
      | Some parent => ancestorStack config limit parent stack (i + 1)
      | None => stack
      end
    else stack.
Proof.
  destruct current as [r nt tn i0 cl att cn parent]. cbn [ancestorStack].
  unfold Dom.parentElement. cbn [Dom.parentNode].
  destruct parent as [q|]; [|reflexivity].
  destruct (Dom.nodeType q =? Dom.ELEMENT_NODE); reflexivity.
Qed.

Lemma firstUnique_ensures (paths : list Path) :
  Forall nonNegative paths -> ensures (firstUnique paths) (found resolved).
Proof.
  induction 1 as [|c paths Hc Hpaths IH].
  - apply ensures_ret. exact I.
  - cbn [firstUnique].
    eapply ensures_bind; [apply unique_ensures | | intros e He; exact He].
    intros [|] Hu; [|exact IH].
    apply ensures_ret. now split.
Qed.

Lemma findUniquePath_ensures (config : Options.t) (stack : list (list Node.t))
      (fallback : option (M (option Path))) :
  Forall nonNegative stack ->
  ensures (orNull fallback) (found resolved) ->
  ensures (findUniquePath config stack fallback) (found resolved).
Proof.
  intros Hstack Hfallback. rewrite findUniquePath_unfold.
  destruct (_ <? _); [exact Hfallback|].
  apply firstUnique_ensures. apply Forall_forall. intros c Hc.
  apply (proj1 (sort_In _ _)) in Hc.
  pose proof (combinations_nonNegative stack Hstack) as H.
  rewrite Forall_forall in H. apply H, Hc.
Qed.

Lemma walk_ensures (config : Options.t) (limit : Limit)
      (fallback : option (M (option Path))) (current : Element) :
  ensures (orNull fallback) (found resolved) ->
  forall stack i,
    Forall nonNegative stack ->
    ensures (walk config limit fallback current stack i) walked.
Proof.
  intros Hfallback. induction current as [current IH] using Element_parent_ind.
  intros stack i Hstack. rewrite walk_unfold.
  destruct (belowRootParent config current); [|apply ensures_ret; exact Hstack].
  cbv zeta.
  assert (Hstack' : Forall nonNegative (stack ++ [levelOf config limit current i])).
  { apply Forall_app. split; [exact Hstack|].
    constructor; [apply levelOf_nonNegative|constructor]. }
  eapply (ensures_bind _ _ (found resolved)).
  - destruct (_ <=? _); [now apply findUniquePath_ensures | apply ensures_ret; exact I].
  - intros [path|] Hpath; [apply ensures_ret; exact Hpath|].
    destruct (Dom.parentElement current) as [parent|] eqn:Hparent.
    + apply IH; [now apply parentElement_parentNode | exact Hstack'].
    + apply ensures_ret. exact Hstack'.
  - intros e He. exact He.
Qed.

Lemma bottomUpSearch_ensures (config : Options.t) (input : Element) (limit : Limit)
      (fallback : option (M (option Path))) :
  ensures (orNull fallback) (found resolved) ->
  ensures (bottomUpSearch config input limit fallback) (found resolved).
Proof.
  intros Hfallback. unfold bottomUpSearch.
  eapply ensures_bind; [apply walk_ensures; [exact Hfallback|constructor] | | ].
  - intros [[path|] stack] Hr; cbn [fst snd].
    + apply ensures_ret. exact Hr.
    + apply findUniquePath_ensures; [exact Hr|exact Hfallback].
  - intros e He. exact He.
Qed.

(** Every path that the three nested searches return matches one node, with
    non-negative penalties; the only errors are those of the oracle. *)
Lemma search_ensures (config : Options.t) (input : Element) :
  ensures (search config input) (found resolved).
Proof.
  unfold search. repeat apply bottomUpSearch_ensures.
  apply ensures_ret. exact I.
Qed.

(** *** The entry point *)

Lemma selector_text (path : Path) (sel : string) :
  selector path = Return sel -> text path = sel.
Proof. unfold text. now intros ->. Qed.

(** C1, as the program has it.  When [generate] returns a selector for an
    element that is not [html], the selector matches exactly one node of the
    document.  That node is the input when the minimizer accepted a path
    (the returned path is then one of the accepted ones); otherwise the
    selector is the rendering of the path that the search found, which was
    tested for uniqueness only. *)
Theorem generate_unique (input : Element) (options : option Options.partial)
        (w w' : World) (sel : string) :
  generate input options w = (Return sel, w') ->
  toLowerCase (Dom.tagName input) <> "html" ->
  let config := Options.spread defaults options in
  exists path w1 accepted,
    search config input (mkWorld (Some config) (queries w)) = (Return (Some path), w1) /\
    optimize config path input w1 = (Return accepted, w') /\
    length (querySelectorAll sel) = 1%nat /\
    match accepted with
    | [] => sel = text path
    | _ :: _ => querySelectorAll sel = [Dom.ref input]
    end.
Proof.
  intros Hrun Hhtml. cbv zeta. unfold generate in Hrun.
  destruct (negb (Dom.nodeType input =? Dom.ELEMENT_NODE)); [discriminate|].
  destruct (String.eqb_spec "html" (toLowerCase (Dom.tagName input))) as [E|_];
    [congruence|].
  cbv zeta in Hrun.
  apply bind_inv in Hrun as ([] & w0 & Hset & Hrun).
  unfold setConfig in Hset. injection Hset as <-.
  apply bind_inv in Hrun as (found0 & w1 & Hsearch & Hrun).
  destruct found0 as [path|]; [|discriminate].
  apply bind_inv in Hrun as (best & w2 & Hmin & Hsel).
  unfold lift in Hsel. injection Hsel as Hsel <-.
  pose proof (ensures_run _ _ _ _ _ (search_ensures _ input) Hsearch) as [Hone _].
  unfold minimized in Hmin.
  apply bind_inv in Hmin as (accepted & w3 & Hopt & Hret).
  unfold ret in Hret. injection Hret as Hbest <-.
  pose proof (ensures_run _ _ _ _ _ (optimize_ensures _ path input) Hopt) as Hall.
  cbn in Hall. pose proof (sort_head accepted) as Hhead.
  exists path, w1, accepted. split; [exact Hsearch|]. split; [exact Hopt|].
  apply selector_text in Hsel.
  destruct (sort accepted) as [|first rest]; subst best.
  - subst accepted. split; [|now symmetry].
    unfold matches, text in *. destruct (selector path); [now subst|discriminate].
  - destruct Hhead as [Hin _]. rewrite Forall_forall in Hall.
    destruct (Hall _ Hin) as [Hsame _]. rewrite Hsel in Hsame.
    split; [now rewrite Hsame|].
    destruct accepted; [destruct Hin|exact Hsame].
Qed.

(** *** Handing over to a narrower policy *)

Lemma count_cons (level : list Node.t) (stack : list (list Node.t)) :
  count (level :: stack) = (length level * count stack)%nat.
Proof.
  unfold count. rewrite combinations_cons.
  generalize (combinations stack []). intros paths.
  induction level as [|node level IH]; [reflexivity|].
  cbn [flat_map length]. rewrite length_app, length_map.
  cbn [Nat.mul]. f_equal. exact IH.
Qed.

Lemma count_snoc (stack : list (list Node.t)) (level : list Node.t) :
  count (stack ++ [level]) = (count stack * length level)%nat.
Proof.
  induction stack as [|first stack IH].
  - cbn [app]. rewrite count_cons. unfold count. cbn. lia.
  - cbn [app]. rewrite !count_cons, IH. lia.
Qed.

(** The number of combinations never goes down along the walk. *)
Lemma count_ancestorStack (config : Options.t) (limit : Limit) (current : Element) :
  forall stack i,
    (count stack <= count (ancestorStack config limit current stack i))%nat.
Proof.
  induction current as [current IH] using Element_parent_ind.
  intros stack i. rewrite ancestorStack_unfold.
  destruct (belowRootParent config current); [|lia]. cbv zeta.
  assert (Hstep : (count stack <= count (stack ++ [levelOf config limit current i]))%nat).
  { rewrite count_snoc.
    pose proof (levelOf_not_nil config limit current i) as Hlevel.
    destruct (levelOf config limit current i); [congruence|]. cbn [length]. nia. }
  destruct (Dom.parentElement current) as [parent|] eqn:Hparent; [|exact Hstep].
  etransitivity; [exact Hstep|].
  apply IH. now apply parentElement_parentNode.
Qed.

Lemma findUniquePath_within (config : Options.t) (stack : list (list Node.t))
      (fallback : option (M (option Path))) :
  Z.of_nat (count stack) <= Options.threshold config ->
  findUniquePath config stack fallback = findUniquePath config stack None.
Proof.
  intros H. rewrite !findUniquePath_unfold. fold (count stack).
  destruct (Z.ltb_spec (Options.threshold config) (Z.of_nat (count stack)));
    [lia|reflexivity].
Qed.

(** While the whole stack fits the threshold the loop never calls the
    fallback. *)
Lemma walk_within (config : Options.t) (limit : Limit)
      (fallback : option (M (option Path))) (current : Element) :
  forall stack i w,
    Z.of_nat (count (ancestorStack config limit current stack i))
    <= Options.threshold config ->
    walk config limit fallback current stack i w
    = walk config limit None current stack i w.
Proof.
  induction current as [current IH] using Element_parent_ind.
  intros stack i w. rewrite ancestorStack_unfold, !walk_unfold.
  destruct (belowRootParent config current); [|reflexivity]. cbv zeta.
  intros Hfits.
  assert (Hstack : Z.of_nat (count (stack ++ [levelOf config limit current i]))
                   <= Options.threshold config).
  { destruct (Dom.parentElement current) as [parent|]; [|exact Hfits].
    pose proof (count_ancestorStack config limit parent
                  (stack ++ [levelOf config limit current i]) (i + 1)).
    lia. }
  rewrite (findUniquePath_within _ _ fallback Hstack).
  apply bind_ext. intros [path|] w1; [reflexivity|].
  destruct (Dom.parentElement current) as [parent|] eqn:Hparent; [|reflexivity].
  apply IH; [now apply parentElement_parentNode | exact Hfits].
Qed.

(** The stack that the loop leaves implies no more combinations than the
    whole stack. *)
Lemma walk_stack (config : Options.t) (limit : Limit)
      (fallback : option (M (option Path))) (current : Element) :
  forall stack i w path left w',
    walk config limit fallback current stack i w = (Return (path, left), w') ->
    (count left <= count (ancestorStack config limit current stack i))%nat.
Proof.
  induction current as [current IH] using Element_parent_ind.
  intros stack i w path left w'. rewrite ancestorStack_unfold, walk_unfold.
  destruct (belowRootParent config current);
    [|unfold ret; intros [= _ <- _]; lia].
  cbv zeta. intros Hrun.
  apply bind_inv in Hrun as (attempt & w1 & _ & Hrun).
  assert (Hhere : forall parent,
             (count (stack ++ [levelOf config limit current i])
              <= count (ancestorStack config limit parent
                          (stack ++ [levelOf config limit current i]) (i + 1)))%nat)
    by (intros; apply count_ancestorStack).
  destruct attempt as [found0|].
  - unfold ret in Hrun. injection Hrun as _ <- _.
    destruct (Dom.parentElement current); [apply Hhere|lia].
  - destruct (Dom.parentElement current) as [parent|] eqn:Hparent.
    + eapply IH; [now apply parentElement_parentNode | exact Hrun].
    + unfold ret in Hrun. injection Hrun as _ <- _. lia.
Qed.

(** A policy whose whole stack fits the threshold runs as if it had no
    fallback. *)
Lemma bottomUpSearch_within (config : Options.t) (input : Element) (limit : Limit)
      (fallback : option (M (option Path))) (w : World) :
  Z.of_nat (count (ancestorStack config limit input [] 0)) <= Options.threshold config ->
  bottomUpSearch config input limit fallback w
  = bottomUpSearch config input limit None w.
Proof.
  intros Hfits. unfold bottomUpSearch, bind.
  rewrite (walk_within config limit fallback input [] 0 w Hfits).
  destruct (walk config limit None input [] 0 w) as [[[path left]|e] w1] eqn:Hwalk;
    [|reflexivity].
  cbn [fst snd]. destruct path; [reflexivity|].
  rewrite (findUniquePath_within _ _ fallback); [reflexivity|].
  pose proof (walk_stack _ _ _ _ _ _ _ _ _ _ Hwalk). lia.
Qed.

Lemma oracleError_not_NotFound (e : Error) : oracleError e -> e <> NotFound.
Proof. intros [->|[sel ->]]; discriminate. Qed.

Lemma minimized_ensures (config : Options.t) (path : Path) (input : Element) :
  ensures (minimized config path input)
          (fun o => match o with Return _ => True | Throw e => oracleError e end).
Proof.
  unfold minimized.
  eapply ensures_bind; [apply optimize_ensures | | intros e He; exact He].
  intros accepted _. apply ensures_ret. exact I.
Qed.

(** [generate] reports that no selector was found exactly when the three
    nested searches end without a path. *)
Lemma generate_NotFound (input : Element) (options : option Options.partial) (w : World) :
  let config := Options.spread defaults options in
  fst (generate input options w) = Throw NotFound
  <-> Dom.nodeType input = Dom.ELEMENT_NODE /\
      toLowerCase (Dom.tagName input) <> "html" /\
      fst (search config input (mkWorld (Some config) (queries w))) = Return None.
Proof.
  cbv zeta. unfold generate.
  destruct (Z.eqb_spec (Dom.nodeType input) Dom.ELEMENT_NODE) as [Helement|Hother];
    cbn [negb].
  2: { split; [discriminate|]. intros [H _]. contradiction. }
  destruct (String.eqb_spec "html" (toLowerCase (Dom.tagName input))) as [Hhtml|Hhtml].
  { split; [discriminate|]. intros (_ & H & _). congruence. }
  cbv zeta. unfold bind at 1. unfold setConfig at 1. unfold bind at 1.
  pose proof (search_ensures (Options.spread defaults options) input
                (mkWorld (Some (Options.spread defaults options)) (queries w))) as Hsearch.
  destruct (search _ input _) as [[[path|]|e] w1]; cbn [fst] in *.
  - split; [|intros (_ & _ & H); discriminate].
    intros H. exfalso. unfold bind in H.
    pose proof (minimized_ensures (Options.spread defaults options) path input w1) as Hmin.
    destruct (minimized _ path input w1) as [[best|e] w2]; cbn [fst] in *.
    + unfold lift in H. cbn [fst] in H. destruct best; discriminate.
    + injection H as ->. now apply oracleError_not_NotFound in Hmin.
  - split; [intros _; repeat split; congruence | reflexivity].
  - split.
    + intros [= ->]. now apply oracleError_not_NotFound in Hsearch.
    + intros (_ & _ & H). discriminate.
Qed.

(** C2, as the program has it.  A resolution hands over to the fallback
    exactly when its stack implies more combinations than the threshold, and
    otherwise runs as if there were no fallback; a policy whose whole stack
    fits the threshold therefore never starts a narrower policy, whether it
    finds a path or not.  The policies are nested in the order [All], [Two],
    [One], and [generate] reports that no selector was found exactly when
    this nest of searches ends without a path. *)
Theorem search_handover (input : Element) (options : option Options.partial) (w : World) :
  let config := Options.spread defaults options in
  let nest :=
    bottomUpSearch config input All (Some (
      bottomUpSearch config input Two (Some (
        bottomUpSearch config input One None)))) in
  (forall stack fallback,
      findUniquePath config stack fallback
      = if Options.threshold config <? Z.of_nat (count stack)
        then orNull fallback
        else findUniquePath config stack None) /\
  (forall limit fallback w0,
      Z.of_nat (count (ancestorStack config limit input [] 0)) <= Options.threshold config ->
      bottomUpSearch config input limit fallback w0
      = bottomUpSearch config input limit None w0) /\
  (fst (generate input options w) = Throw NotFound
   <-> Dom.nodeType input = Dom.ELEMENT_NODE /\
       toLowerCase (Dom.tagName input) <> "html" /\
       fst (nest (mkWorld (Some config) (queries w))) = Return None).
Proof.
  cbv zeta. split; [|split].
  - intros stack fallback.
    destruct (Z.ltb_spec (Options.threshold (Options.spread defaults options))
                         (Z.of_nat (count stack))) as [Hover|Hfits].
    + rewrite findUniquePath_unfold. fold (count stack).
      destruct (Z.ltb_spec (Options.threshold (Options.spread defaults options))
                           (Z.of_nat (count stack))); [reflexivity|lia].
    + now apply findUniquePath_within.
  - intros limit fallback w0 Hfits. now apply bottomUpSearch_within.
  - apply generate_NotFound.
Qed.

(* ================================================================= *)
(** ** Further properties of the program *)

(** *** Input that is not an element *)

(** X1. A node that is not an element is refused before anything else
    happens, whatever its tag name: [generate] throws, the [config] slot and
    the document are left alone. *)
Theorem generate_non_element (input : Element) (options : option Options.partial)
        (w : World) :
  Dom.nodeType input <> Dom.ELEMENT_NODE ->
  generate input options w = (Throw NonElement, w).
Proof.
  intros Hother. unfold generate.
  destruct (Z.eqb_spec (Dom.nodeType input) Dom.ELEMENT_NODE); [contradiction|].
  reflexivity.
Qed.

(** *** The position among the siblings *)

Lemma elementsIn_cons (child : Dom.Child) (children : list Dom.Child) :
  elementsIn (child :: children)
  = ((if (Dom.childType child =? Dom.ELEMENT_NODE)%Z then 1 else 0) + elementsIn children)%nat.
Proof.
  unfold elementsIn. cbn [filter].
  now destruct (Dom.childType child =? Dom.ELEMENT_NODE).
Qed.

Lemma indexLoop_absent (input : Element) (children : list Dom.Child) (i : nat) :
  Forall (fun c => Dom.childRef c <> Dom.ref input) children ->
  indexLoop input children i = (i + elementsIn children)%nat.
Proof.
  intros H. revert i. induction H as [|child children Hchild Hrest IH]; intros i.
  - cbn. unfold elementsIn. cbn. lia.
  - cbn [indexLoop]. rewrite elementsIn_cons.
    destruct (Nat.eqb_spec (Dom.childRef child) (Dom.ref input)); [contradiction|].
    cbn [orb]. destruct children as [|next children].
    + unfold elementsIn. cbn.
      destruct (Dom.childType child =? Dom.ELEMENT_NODE); lia.
    + rewrite IH. destruct (Dom.childType child =? Dom.ELEMENT_NODE); lia.
Qed.

Lemma indexLoop_present (input : Element) (before after : list Dom.Child)
      (child : Dom.Child) (i : nat) :
  Forall (fun c => Dom.childRef c <> Dom.ref input) before ->
  Dom.childRef child = Dom.ref input ->
  indexLoop input (before ++ child :: after) i = (i + elementsIn (before ++ [child]))%nat.
Proof.
  intros H Hchild. revert i. induction H as [|c before Hc Hrest IH]; intros i.
  - cbn [app indexLoop]. rewrite Hchild, Nat.eqb_refl. cbn [orb].
    unfold elementsIn. cbn.
    destruct (Dom.childType child =? Dom.ELEMENT_NODE); cbn; lia.
  - cbn [app indexLoop]. rewrite elementsIn_cons.
    destruct (Nat.eqb_spec (Dom.childRef c) (Dom.ref input)); [contradiction|].
    cbn [orb].
    assert (Hmore : match before ++ child :: after with [] => true | _ :: _ => false end
                    = false) by (destruct before; reflexivity).
    rewrite Hmore, IH. destruct (Dom.childType c =? Dom.ELEMENT_NODE); lia.
Qed.

(** X2. For a node that has a parent, [index] is the number of element
    nodes among the children of the parent up to and including the node
    itself (text and comment nodes are not counted), hence at least 1 for
    an element; when the node is not found among the children, all the
    element nodes are counted. *)
Theorem index_position (input parent : Element) :
  Dom.parentNode input = Some parent ->
  (forall before child after,
      Dom.childNodes parent = before ++ child :: after ->
      Forall (fun c => Dom.childRef c <> Dom.ref input) before ->
      Dom.childRef child = Dom.ref input ->
      index input = Some (elementsIn (before ++ [child])) /\
      (Dom.childType child = Dom.ELEMENT_NODE ->
       (1 <= elementsIn (before ++ [child]))%nat)) /\
  (Dom.childNodes parent <> [] ->
   Forall (fun c => Dom.childRef c <> Dom.ref input) (Dom.childNodes parent) ->
   index input = Some (elementsIn (Dom.childNodes parent))).
Proof.
  intros Hparent. unfold index. rewrite Hparent. split.
  - intros before child after Hchildren Hbefore Hchild. split.
    + rewrite Hchildren.
      pose proof (indexLoop_present input before after child 0 Hbefore Hchild) as Hloop.
      cbn [Nat.add] in Hloop. rewrite <- Hloop.
      destruct before; reflexivity.
    + intros Htype. unfold elementsIn.
      rewrite filter_app, length_app. cbn [filter].
      rewrite Htype, Z.eqb_refl. cbn. lia.
  - intros Hsome Habsent.
    destruct (Dom.childNodes parent) eqn:E; [congruence|].
    f_equal. now apply indexLoop_absent.
Qed.

(** *** What a combination is *)

Lemma combinations_In (stack : list (list Node.t)) (c : Path) :
  In c (combinations stack []) <-> Forall2 (fun f level => In f level) c stack.
Proof.
  revert c. induction stack as [|level stack IH]; intros c.
  - cbn. split.
    + intros [<-|[]]. constructor.
    + intros H. inversion H. now left.
  - rewrite combinations_cons, in_flat_map. split.
    + intros (node & Hnode & Hc).
      apply in_map_iff in Hc as (c' & <- & Hc').
      constructor; [exact Hnode | now apply IH].
    + intros H. inversion H as [|node ? c' ? Hnode Hc']; subst.
      exists node. split; [exact Hnode|].
      apply in_map. now apply IH.
Qed.

(** X3. The combinations of a stack are exactly the paths that take one
    fragment from each level, in the order of the levels; their number is
    the product of the sizes of the levels (so one empty path for the empty
    stack, and none as soon as a level is empty). *)
Theorem combinations_choices (stack : list (list Node.t)) :
  (forall c, In c (combinations stack [])
             <-> Forall2 (fun f level => In f level) c stack) /\
  length (combinations stack [])
  = fold_right (fun level n => (length level * n)%nat) 1%nat stack.
Proof.
  split.
  - intros c. apply combinations_In.
  - induction stack as [|level stack IH]; [reflexivity|].
    cbn [fold_right]. rewrite <- IH. apply count_cons.
Qed.

(** *** The sorted order is the only stable one *)

Lemma filter_none_cheaper (v : Z) (paths : list Path) :
  Forall (fun c => v < penalty c) paths ->
  filter (fun c => penalty c =? v) paths = [].
Proof.
  induction 1 as [|c paths Hc Hpaths IH]; [reflexivity|].
  cbn [filter]. destruct (Z.eqb_spec (penalty c) v); [lia|exact IH].
Qed.

Lemma sorted_head_filter (x : Path) (rest : list Path) (v : Z) :
  StronglySorted cheaper (x :: rest) -> v < penalty x ->
  filter (fun c => penalty c =? v) (x :: rest) = [].
Proof.
  intros Hsorted Hv. apply filter_none_cheaper.
  inversion Hsorted as [|? ? _ Hx]; subst.
  constructor; [exact Hv|].
  eapply Forall_impl; [|exact Hx]. unfold cheaper. intros c Hc. lia.
Qed.

Lemma sorted_by_classes (l1 l2 : list Path) :
  StronglySorted cheaper l1 -> StronglySorted cheaper l2 ->
  (forall v, filter (fun c => penalty c =? v) l1 = filter (fun c => penalty c =? v) l2) ->
  l1 = l2.
Proof.
  intros H1. revert l2. induction H1 as [|x l1 Hrest IH Hx]; intros l2 H2 Hsame.
  - destruct l2 as [|y l2]; [reflexivity|].
    specialize (Hsame (penalty y)). cbn [filter] in Hsame.
    rewrite Z.eqb_refl in Hsame. discriminate.
  - assert (Hsorted1 : StronglySorted cheaper (x :: l1)) by now constructor.
    destruct l2 as [|y l2].
    { specialize (Hsame (penalty x)). cbn [filter] in Hsame.
      rewrite Z.eqb_refl in Hsame. discriminate. }
    assert (Hkey : penalty x = penalty y).
    { destruct (Z.lt_trichotomy (penalty x) (penalty y)) as [Hlt|[Heq|Hgt]];
        [|exact Heq|].
      - pose proof (Hsame (penalty x)) as H.
        rewrite (sorted_head_filter y l2 (penalty x) H2 Hlt) in H.
        cbn [filter] in H. rewrite Z.eqb_refl in H. discriminate.
      - pose proof (Hsame (penalty y)) as H.
        rewrite (sorted_head_filter x l1 (penalty y) Hsorted1 Hgt) in H.
        cbn [filter] in H. rewrite Z.eqb_refl in H. discriminate. }
    assert (Hhead : x = y).
    { pose proof (Hsame (penalty x)) as H. cbn [filter] in H.
      rewrite <- Hkey, Z.eqb_refl in H. now injection H. }
    subst y. f_equal. apply IH; [now inversion H2|].
    intros v. specialize (Hsame v). cbn [filter] in Hsame.
    destruct (penalty x =? v); [now injection Hsame|exact Hsame].
Qed.

(** X4. [sort] gives the only arrangement that is in ascending order of
    total penalty and keeps, for every penalty, the paths of that penalty in
    the order they had: whatever stable sorting method the engine uses, the
    outcome is this one. *)
Theorem sort_characterised (paths arranged : list Path) :
  StronglySorted cheaper arranged ->
  (forall v, filter (fun c => penalty c =? v) arranged
             = filter (fun c => penalty c =? v) paths) ->
  arranged = sort paths.
Proof.
  intros Hsorted Hstable.
  apply sorted_by_classes; [exact Hsorted | apply sort_sorted |].
  intros v. now rewrite Hstable, sort_stable.
Qed.

(** *** The three policies against each other *)

Lemma incl_firstn {A} (k : nat) (l : list A) : incl (firstn k l) l.
Proof.
  intros x Hx. rewrite <- (firstn_skipn k l). apply in_or_app. now left.
Qed.

Lemma incl_filter {A} (f : A -> bool) (l1 l2 : list A) :
  incl l1 l2 -> incl (filter f l1) (filter f l2).
Proof.
  intros H x Hx. apply filter_In in Hx as [Hx Hf].
  apply filter_In. split; [now apply H|exact Hf].
Qed.

Lemma withNth_incl (l1 l2 : list Node.t) (n : nat) :
  incl l1 l2 -> incl (withNth l1 n) (withNth l2 n).
Proof.
  intros H. unfold withNth. apply incl_app.
  - apply incl_appl, H.
  - apply incl_appr, incl_map, incl_filter, H.
Qed.

Lemma limited_Two_All (level : list Node.t) (nth : option nat) :
  incl (limited Two level nth) (limited All level nth).
Proof.
  cbn [limited]. destruct nth as [[|n]|]; try apply incl_firstn.
  apply withNth_incl, incl_firstn.
Qed.

Lemma limited_One_Two (level : list Node.t) (nth : option nat) :
  incl (limited One level nth) (limited Two level nth).
Proof.
  cbn [limited]. destruct (firstn 1 level) as [|node rest]; [apply incl_nil_l|].
  destruct nth as [[|n]|]; try apply incl_refl.
  destruct (dispensableNth node) eqn:Hd.
  - unfold withNth. apply incl_appr. cbn [filter]. rewrite Hd. cbn [map].
    intros x [<-|[]]. now left.
  - unfold withNth. apply incl_appl, incl_refl.
Qed.

Lemma levels_narrow_incl (config : Options.t) (current : Element) (i : Z) :
  incl (levelOf config One current i) (levelOf config Two current i) /\
  incl (levelOf config Two current i) (levelOf config All current i).
Proof.
  unfold levelOf. split; apply incl_map.
  - apply limited_One_Two.
  - apply limited_Two_All.
Qed.

(** X5. At every node a narrower policy proposes nothing new: each
    fragment of the level under [One] is a fragment of the level under
    [Two], and each fragment of the level under [Two] is a fragment of the
    level under [All]. *)
Theorem levels_narrow (config : Options.t) (current : Element) (i : Z) :
  incl (levelOf config One current i) (levelOf config Two current i) /\
  incl (levelOf config Two current i) (levelOf config All current i).
Proof. apply levels_narrow_incl. Qed.

Lemma levelOf_One_length (config : Options.t) (current : Element) (i : Z) :
  length (levelOf config One current i) = 1%nat.
Proof.
  unfold levelOf. rewrite length_map.
  pose proof (candidates_not_nil config current) as Hsome.
  destruct (candidates config current) as [|node rest]; [congruence|].
  cbn. destruct (index current) as [[|n]|]; try reflexivity.
  now destruct (dispensableNth node).
Qed.

Lemma ancestorStack_One_count (config : Options.t) (current : Element) :
  forall stack i,
    count stack = 1%nat -> count (ancestorStack config One current stack i) = 1%nat.
Proof.
  induction current as [current IH] using Element_parent_ind.
  intros stack i Hone. rewrite ancestorStack_unfold.
  destruct (belowRootParent config current); [|exact Hone]. cbv zeta.
  assert (Hstep : count (stack ++ [levelOf config One current i]) = 1%nat)
    by (rewrite count_snoc, levelOf_One_length, Hone; reflexivity).
  destruct (Dom.parentElement current) as [parent|] eqn:Hparent; [|exact Hstep].
  apply IH; [now apply parentElement_parentNode|exact Hstep].
Qed.

(** X6. Under [One] every level holds exactly one fragment, so the whole
    stack implies a single combination; with a threshold of at least 1 the
    narrowest policy therefore never gives up for lack of budget and runs
    the same with any fallback. *)
Theorem narrowest_fits (config : Options.t) (input : Element) :
  1 <= Options.threshold config ->
  (forall current i, length (levelOf config One current i) = 1%nat) /\
  count (ancestorStack config One input [] 0) = 1%nat /\
  (forall fallback w,
      bottomUpSearch config input One fallback w
      = bottomUpSearch config input One None w).
Proof.
  intros Hthreshold.
  assert (Hcount : count (ancestorStack config One input [] 0) = 1%nat)
    by (apply ancestorStack_One_count; reflexivity).
  split; [intros; apply levelOf_One_length|]. split; [exact Hcount|].
  intros fallback w. apply bottomUpSearch_within. rewrite Hcount. lia.
Qed.

(** *** The shape of the path that the search finds *)

Lemma firstUnique_all (Q : Path -> Prop) (paths : list Path) :
  Forall Q paths -> ensures (firstUnique paths) (found Q).
Proof.
  induction 1 as [|c paths Hc Hpaths IH].
  - apply ensures_ret. exact I.
  - cbn [firstUnique].
    eapply ensures_bind; [apply unique_ensures | | intros e He; exact He].
    intros [|] Hu; [|exact IH].
    apply ensures_ret. exact Hc.
Qed.

Lemma findUniquePath_all (Q : Path -> Prop) (config : Options.t)
      (stack : list (list Node.t)) (fallback : option (M (option Path))) :
  (forall c, In c (combinations stack []) -> Q c) ->
  ensures (orNull fallback) (found Q) ->
  ensures (findUniquePath config stack fallback) (found Q).
Proof.
  intros Hstack Hfallback. rewrite findUniquePath_unfold.
  destruct (_ <? _); [exact Hfallback|].
  apply firstUnique_all, Forall_forall. intros c Hc.
  apply Hstack. now apply (proj1 (sort_In _ _)).
Qed.

(** The loop keeps any property of the stack that pushing a level keeps,
    and finds only paths that the combinations of such stacks allow. *)
Lemma walk_all (Q : Path -> Prop) (Inv : list (list Node.t) -> Z -> Prop)
      (config : Options.t) (limit : Limit) (fallback : option (M (option Path))) :
  (forall stack i c, Inv stack i -> In c (combinations stack []) -> Q c) ->
  (forall stack i current,
      Inv stack i -> Inv (stack ++ [levelOf config limit current i]) (i + 1)) ->
  ensures (orNull fallback) (found Q) ->
  forall current stack i,
    Inv stack i ->
    ensures (walk config limit fallback current stack i)
            (fun o => match o with
                      | Return (Some path, _) => Q path
                      | Return (None, kept) => exists i', Inv kept i'
                      | Throw e => oracleError e
                      end).
Proof.
  intros Hcombos Hpush Hfallback.
  induction current as [current IH] using Element_parent_ind.
  intros stack i Hinv. rewrite walk_unfold.
  destruct (belowRootParent config current); [|apply ensures_ret; eauto].
  cbv zeta. specialize (Hpush stack i current Hinv).
  eapply (ensures_bind _ _ (found Q)).
  - destruct (_ <=? _); [|apply ensures_ret; exact I].
    apply findUniquePath_all; [|exact Hfallback].
    intros c. now apply Hcombos with (i := i + 1).
  - intros [path|] Hpath; [apply ensures_ret; exact Hpath|].
    destruct (Dom.parentElement current) as [parent|] eqn:Hparent.
    + apply IH; [now apply parentElement_parentNode | exact Hpush].
    + apply ensures_ret. eauto.
  - intros e He. exact He.
Qed.

Lemma bottomUpSearch_all (Q : Path -> Prop) (Inv : list (list Node.t) -> Z -> Prop)
      (config : Options.t) (input : Element) (limit : Limit)
      (fallback : option (M (option Path))) :
  (forall stack i c, Inv stack i -> In c (combinations stack []) -> Q c) ->
  (forall stack i current,
      Inv stack i -> Inv (stack ++ [levelOf config limit current i]) (i + 1)) ->
  Inv [] 0 ->
  ensures (orNull fallback) (found Q) ->
  ensures (bottomUpSearch config input limit fallback) (found Q).
Proof.
  intros Hcombos Hpush Hstart Hfallback. unfold bottomUpSearch.
  eapply ensures_bind;
    [apply (walk_all Q Inv); eassumption | | intros e He; exact He].
  intros [[path|] left] Hr; cbn [fst snd].
  - apply ensures_ret. exact Hr.
  - destruct Hr as [i' Hinv].
    apply findUniquePath_all; [|exact Hfallback].
    intros c. now apply Hcombos with (i := i').
Qed.

Lemma levelOf_level (config : Options.t) (limit : Limit) (current : Element) (i : Z) :
  Forall (fun f => Node.level f = Some i) (levelOf config limit current i).
Proof.
  unfold levelOf. apply Forall_map, Forall_forall. intros; reflexivity.
Qed.

Lemma inStep_push (config : Options.t) (limit : Limit) (stack : list (list Node.t))
      (i : Z) (current : Element) :
  inStep stack i -> inStep (stack ++ [levelOf config limit current i]) (i + 1).
Proof.
  intros [-> Hlevels]. unfold inStep, levelledFrom in *. split.
  - rewrite length_app. cbn [length]. lia.
  - rewrite length_app. cbn [length]. rewrite seq_app. cbn [seq Nat.add].
    apply Forall2_app; [exact Hlevels|].
    constructor; [apply levelOf_level|constructor].
Qed.

Lemma levelled_combination (stack : list (list Node.t)) :
  forall start c,
    levelledFrom start stack ->
    Forall2 (fun f level => In f level) c stack ->
    map Node.level c = map (fun j => Some (Z.of_nat j)) (seq start (length c)).
Proof.
  unfold levelledFrom.
  induction stack as [|level stack IH]; intros start c Hlevels Hc.
  - inversion Hc. reflexivity.
  - inversion Hc as [|f ? c' ? Hf Hc']; subst.
    cbn [length seq] in Hlevels.
    inversion Hlevels as [|? ? ? ? Hlevel Hrest]; subst.
    cbn [map length seq]. f_equal.
    + rewrite Forall_forall in Hlevel. now apply Hlevel.
    + now apply IH.
Qed.

Lemma inStep_combination (stack : list (list Node.t)) (i : Z) (c : Path) :
  inStep stack i -> In c (combinations stack []) -> levelsFromZero c.
Proof.
  intros [_ Hlevels] Hc. apply combinations_In in Hc.
  now apply (levelled_combination stack).
Qed.

(** Every path that the search returns carries the levels 0, 1, 2, ... *)
Lemma search_levels (config : Options.t) (input : Element) :
  ensures (search config input) (found levelsFromZero).
Proof.
  assert (Hstart : inStep [] 0) by (split; [reflexivity|constructor]).
  unfold search.
  repeat (apply (bottomUpSearch_all levelsFromZero inStep);
          [apply inStep_combination | intros; now apply inStep_push | exact Hstart | ]).
  apply ensures_ret. exact I.
Qed.

(** With contiguous levels every step of the renderer takes the child
    combinator. *)
Lemma selectorStep_contiguous (rest : Path) :
  forall node query start,
    Node.level node = Some (Z.of_nat start) ->
    map Node.level rest
    = map (fun j => Some (Z.of_nat j)) (seq (S start) (length rest)) ->
    snd (fold_left selectorStep rest (node, query))
    = fold_left (fun q f => Node.name f +++ " > " +++ q) rest query.
Proof.
  induction rest as [|outer rest IH]; intros node query start Hnode Hrest.
  - reflexivity.
  - cbn [length seq map] in Hrest. injection Hrest as Houter Hrest.
    cbn [fold_left].
    assert (Hstep : selectorStep (node, query) outer
                    = (outer, Node.name outer +++ " > " +++ query)).
    { change (Node.level outer = Some (Z.of_nat (S start))) in Houter.
      unfold selectorStep, levelOrZero. rewrite Hnode, Houter.
      replace (if Z.of_nat (S start) =? 0 then 0 else Z.of_nat (S start))
        with (Z.of_nat (S start)) by (destruct (Z.eqb_spec (Z.of_nat (S start)) 0); lia).
      destruct (Z.eqb_spec (Z.of_nat start) (Z.of_nat (S start) - 1)); [reflexivity|lia]. }
    rewrite Hstep. now apply (IH outer _ (S start)).
Qed.

Lemma concat_cons (sep x : string) (rest : list string) :
  rest <> [] -> String.concat sep (x :: rest) = x +++ sep +++ String.concat sep rest.
Proof. destruct rest; [congruence|reflexivity]. Qed.

Lemma child_chain (rest : Path) :
  forall inner : list string,
    inner <> [] ->
    fold_left (fun q f => Node.name f +++ " > " +++ q) rest (String.concat " > " inner)
    = String.concat " > " (rev (map Node.name rest) ++ inner).
Proof.
  induction rest as [|outer rest IH]; intros inner Hinner; [reflexivity|].
  cbn [fold_left map rev]. rewrite <- concat_cons by exact Hinner.
  rewrite IH by discriminate. now rewrite <- app_assoc.
Qed.

(** X7. A path that the three nested searches return carries the levels
    0, 1, 2, ... from the target outward, so it renders as the texts of its
    fragments, outermost first, joined by child combinators only; a
    descendant combinator can only come from the minimizer. *)
Theorem search_child_chain (config : Options.t) (input : Element) (w w' : World)
        (path : Path) :
  search config input w = (Return (Some path), w') ->
  levelsFromZero path /\
  selector path = Return (String.concat " > " (rev (map Node.name path))).
Proof.
  intros Hrun.
  pose proof (ensures_run _ _ _ _ _ (search_levels config input) Hrun) as Hlevels.
  pose proof (ensures_run _ _ _ _ _ (search_ensures config input) Hrun) as [Hone _].
  cbn in Hlevels. split; [exact Hlevels|].
  destruct path as [|target ancestors]; [discriminate|].
  unfold levelsFromZero in Hlevels. cbn [length seq map] in Hlevels.
  injection Hlevels as Htarget Hancestors.
  rewrite selector_cons. f_equal.
  rewrite (selectorStep_contiguous ancestors target _ 0 Htarget Hancestors).
  change (Node.name target) with (String.concat " > " [Node.name target]) at 1.
  rewrite child_chain by discriminate. reflexivity.
Qed.

(** *** What the minimizer leaves of a path *)

Lemma without_head (path : Path) (i : nat) :
  (1 <= i)%nat -> hd_error (without path i) = hd_error path.
Proof.
  intros Hi. destruct i as [|i]; [lia|]. now destruct path.
Qed.

Lemma last_skipn (path : Path) (k : nat) (d : Node.t) :
  (k < length path)%nat -> last (skipn k path) d = last path d.
Proof.
  revert path. induction k as [|k IH]; intros path Hk; [reflexivity|].
  destruct path as [|f path]; [cbn in Hk; lia|].
  cbn [skipn]. rewrite IH by (cbn in Hk; lia).
  destruct path; [cbn in Hk; lia|reflexivity].
Qed.

Lemma last_app_some (a b : Path) (d : Node.t) :
  b <> [] -> last (a ++ b) d = last b d.
Proof.
  intros Hb. induction a as [|f a IH]; [reflexivity|].
  cbn [app]. destruct (a ++ b) eqn:E.
  - apply app_eq_nil in E as [_ ->]. congruence.
  - rewrite <- IH. reflexivity.
Qed.

Lemma without_last (path : Path) (i : nat) (d : Node.t) :
  (S i < length path)%nat -> last (without path i) d = last path d.
Proof.
  intros Hi. unfold without.
  rewrite last_app_some.
  - now apply last_skipn.
  - intros E. apply (f_equal (@length _)) in E.
    rewrite length_skipn in E. cbn in E. lia.
Qed.

Lemma optimizeFuel_ends (fuel : nat) (config : Options.t) (input : Element) :
  forall path,
    ensures (optimizeFuel fuel config path input)
            (collects (fun c =>
               hd_error c = hd_error path /\
               last c any = last path any /\
               (2 <= length c < length path)%nat)).
Proof.
  induction fuel as [|fuel IH]; intros path.
  - apply ensures_ret. constructor.
  - cbn [optimizeFuel].
    destruct (Nat.ltb_spec 2 (length path)) as [Hlong|Hshort];
      [|apply ensures_ret; constructor].
    destruct (_ <? _); [|apply ensures_ret; constructor]. cbn [andb].
    apply forEach_ensures. intros i Hi. apply in_seq in Hi. cbv zeta.
    assert (Hlen : length (without path i) = (length path - 1)%nat)
      by (apply without_length; lia).
    assert (Hhd : hd_error (without path i) = hd_error path)
      by (apply without_head; lia).
    assert (Hlast : last (without path i) any = last path any)
      by (apply without_last; lia).
    eapply ensures_bind; [apply unique_ensures | | intros e He; exact He].
    intros u _.
    apply (ensures_bind _ _ (fun o => match o with
                                      | Return _ => True
                                      | Throw e => oracleError e
                                      end)).
    + destruct u; [|apply ensures_ret; exact I].
      eapply ensures_weaken; [apply same_ensures|].
      intros [[|]|e] H; try exact I. exact H.
    + intros [|] _; [|apply ensures_ret; constructor].
      eapply ensures_bind; [apply IH | | intros e He; exact He].
      intros rest Hrest. apply ensures_ret. cbn in *. constructor.
      * repeat split; try assumption; lia.
      * eapply Forall_impl; [|exact Hrest].
        intros c (Hc1 & Hc2 & Hc3). repeat split; try congruence; lia.
    + intros e He. exact He.
Qed.

(** X8. Every path that [optimize] yields keeps the fragment of the target
    (index 0) and the outermost fragment of the path it was given, is
    strictly shorter than it and still has at least two fragments. *)
Theorem optimize_keeps_ends (config : Options.t) (path : Path) (input : Element)
        (w w' : World) (accepted : list Path) :
  optimize config path input w = (Return accepted, w') ->
  Forall (fun c =>
            hd_error c = hd_error path /\
            last c any = last path any /\
            (2 <= length c < length path)%nat) accepted.
Proof.
  intros Hrun.
  exact (ensures_run _ _ _ _ _ (optimizeFuel_ends _ config input path) Hrun).
Qed.

(** X9. A path of at most two fragments, or of no more fragments than
    [optimizedMinLength], is left as it is: [optimize] yields nothing and
    sends no query, and the path itself is the one rendered. *)
Theorem optimize_short (config : Options.t) (path : Path) (input : Element) (w : World) :
  (length path <= 2)%nat \/ Z.of_nat (length path) <= Options.optimizedMinLength config ->
  optimize config path input w = (Return [], w) /\
  minimized config path input w = (Return path, w).
Proof.
  intros Hshort.
  assert (Hnone : optimize config path input w = (Return [], w)).
  { unfold optimize. destruct (length path) as [|n] eqn:Hlen; [reflexivity|].
    cbn [optimizeFuel]. rewrite Hlen.
    destruct (Nat.ltb_spec 2 (S n)) as [Hlong|_]; [|reflexivity].
    destruct (Z.ltb_spec (Options.optimizedMinLength config) (Z.of_nat (S n)));
      [|reflexivity].
    destruct Hshort; lia. }
  split; [exact Hnone|].
  unfold minimized, bind. now rewrite Hnone.
Qed.

(** *** The seed *)

Lemma ancestorStack_length (config : Options.t) (limit : Limit) (current : Element) :
  forall stack i,
    (length stack <= length (ancestorStack config limit current stack i))%nat.
Proof.
  induction current as [current IH] using Element_parent_ind.
  intros stack i. rewrite ancestorStack_unfold.
  destruct (belowRootParent config current); [|lia]. cbv zeta.
  assert (Hstep : (length stack <= length (stack ++ [levelOf config limit current i]))%nat)
    by (rewrite length_app; lia).
  destruct (Dom.parentElement current) as [parent|] eqn:Hparent; [|exact Hstep].
  etransitivity; [exact Hstep|].
  apply IH. now apply parentElement_parentNode.
Qed.

(** While the stack stays under the seed the loop only collects levels. *)
Lemma walk_unseeded (config : Options.t) (limit : Limit)
      (fallback : option (M (option Path))) (current : Element) :
  forall stack i w,
    Z.of_nat (length (ancestorStack config limit current stack i))
    < Options.seedMinLength config ->
    walk config limit fallback current stack i w
    = (Return (None, ancestorStack config limit current stack i), w).
Proof.
  induction current as [current IH] using Element_parent_ind.
  intros stack i w. rewrite ancestorStack_unfold, walk_unfold.
  destruct (belowRootParent config current); [|reflexivity]. cbv zeta.
  intros Hunder.
  assert (Hhere : Z.of_nat (length (stack ++ [levelOf config limit current i]))
                  < Options.seedMinLength config).
  { destruct (Dom.parentElement current) as [parent|]; [|exact Hunder].
    pose proof (ancestorStack_length config limit parent
                  (stack ++ [levelOf config limit current i]) (i + 1)).
    lia. }
  destruct (Z.leb_spec (Options.seedMinLength config)
                       (Z.of_nat (length (stack ++ [levelOf config limit current i]))));
    [lia|].
  rewrite bind_ret.
  destruct (Dom.parentElement current) as [parent|] eqn:Hparent; [|reflexivity].
  apply IH; [now apply parentElement_parentNode|exact Hunder].
Qed.

(** X10. When the input has fewer ancestors up to the root than
    [seedMinLength] asks for, the search under a policy is the single
    resolution of the whole stack: nothing is tested on the way up. *)
Theorem bottomUpSearch_unseeded (config : Options.t) (input : Element) (limit : Limit)
        (fallback : option (M (option Path))) (w : World) :
  Z.of_nat (length (ancestorStack config limit input [] 0)) < Options.seedMinLength config ->
  bottomUpSearch config input limit fallback w
  = findUniquePath config (ancestorStack config limit input [] 0) fallback w.
Proof.
  intros Hunder. unfold bottomUpSearch, bind.
  now rewrite (walk_unseeded config limit fallback input [] 0 w Hunder).
Qed.

(** *** The parent of the root as input *)

(** X11. When the input is the parent element of the configured root (and
    is not [html]), the walk does not even start: the stack stays empty, its
    one combination is the empty path, which does not render.  [generate]
    then throws a [TypeError] without sending any query; with a threshold
    below 1 it reports instead that no selector was found. *)
Theorem generate_root_parent (input rootParent : Element)
        (options : option Options.partial) (w : World) :
  let config := Options.spread defaults options in
  Dom.nodeType input = Dom.ELEMENT_NODE ->
  toLowerCase (Dom.tagName input) <> "html" ->
  Dom.parentElement (Options.root config) = Some rootParent ->
  Dom.ref input = Dom.ref rootParent ->
  generate input options w
  = (Throw (if 1 <=? Options.threshold config then TypeError else NotFound),
     mkWorld (Some config) (queries w)).
Proof.
  cbv zeta. set (config := Options.spread defaults options).
  intros Helement Hhtml Hroot Href.
  assert (Hwalk : forall limit fallback w0,
             bottomUpSearch config input limit fallback w0
             = findUniquePath config [] fallback w0).
  { intros limit fallback w0. unfold bottomUpSearch, bind.
    rewrite walk_unfold. unfold belowRootParent.
    rewrite Hroot, Href, Nat.eqb_refl. reflexivity. }
  unfold generate. rewrite Helement, Z.eqb_refl. cbn [negb].
  destruct (String.eqb_spec "html" (toLowerCase (Dom.tagName input))); [congruence|].
  cbv zeta. fold config. unfold bind at 1, setConfig at 1.
  unfold search, bind at 1. rewrite !Hwalk, !findUniquePath_unfold.
  cbn [combinations length sort fold_right insert].
  destruct (Z.leb_spec 1 (Options.threshold config)) as [Hfits|Hover].
  - destruct (Z.ltb_spec (Options.threshold config) (Z.of_nat 1)); [lia|].
    reflexivity.
  - destruct (Z.ltb_spec (Options.threshold config) (Z.of_nat 1)); [|lia].
    cbn [orNull]. rewrite !Hwalk, !findUniquePath_unfold.
    cbn [combinations length].
    destruct (Z.ltb_spec (Options.threshold config) (Z.of_nat 1)); [|lia].
    cbn [orNull]. rewrite !Hwalk, !findUniquePath_unfold.
    cbn [combinations length].
    destruct (Z.ltb_spec (Options.threshold config) (Z.of_nat 1)); [|lia].
    reflexivity.
Qed.

(** *** The target at the end of the selector *)

Lemma append_assoc (a b c : string) : (a +++ b) +++ c = a +++ (b +++ c).
Proof. induction a as [|x a IH]; cbn; [reflexivity|now rewrite IH]. Qed.

Lemma selectorStep_suffix (target : string) (rest : Path) :
  forall node query,
    (exists before, query = before +++ target) ->
    exists before, snd (fold_left selectorStep rest (node, query)) = before +++ target.
Proof.
  induction rest as [|outer rest IH]; intros node query Hquery; [exact Hquery|].
  cbn [fold_left]. destruct Hquery as [before ->].
  unfold selectorStep at 2.
  destruct (match Node.level node with Some l => _ | None => false end);
    apply IH; eexists; rewrite <- !append_assoc; reflexivity.
Qed.

(** X13. Whatever the levels are, the selector of a path ends with the text
    of its target fragment: the ancestors are only ever put in front. *)
Theorem selector_ends_with_target (target : Node.t) (ancestors : Path) :
  exists before,
    selector (target :: ancestors) = Return (before +++ Node.name target).
Proof.
  rewrite selector_cons.
  destruct (selectorStep_suffix (Node.name target) ancestors target (Node.name target))
    as [before Hbefore].
  - now exists EmptyString.
  - exists before. now rewrite Hbefore.
Qed.

(** *** What a call leaves behind *)

Lemma extends_ret {A} (a : A) : extends (ret a).
Proof. intros w. exists []. cbn. now rewrite afterAsking_nil. Qed.

Lemma extends_throw {A} (e : Error) : extends (@throw A e).
Proof. intros w. exists []. cbn. now rewrite afterAsking_nil. Qed.

Lemma extends_bind {A B} (m : M A) (k : A -> M B) :
  extends m -> (forall a, extends (k a)) -> extends (bind m k).
Proof.
  intros Hm Hk w. unfold bind. destruct (Hm w) as [asked Hw].
  destruct (m w) as [[a|e] w1]; cbn [snd] in *; subst w1.
  - destruct (Hk a (afterAsking w asked)) as [more Hmore].
    exists (asked ++ more). now rewrite Hmore, afterAsking_app.
  - now exists asked.
Qed.

Lemma extends_unique (c : Path) : extends (unique c).
Proof.
  intros w. unfold unique, bind, lift, ask.
  destruct (selector c) as [sel|e].
  - exists [QueryAll sel].
    destruct (length (querySelectorAll sel)) as [|[|n]]; reflexivity.
  - exists []. cbn. now rewrite afterAsking_nil.
Qed.

Lemma extends_same (c : Path) (input : Element) : extends (same c input).
Proof.
  intros w. unfold same, bind, lift, ask.
  destruct (selector c) as [sel|e].
  - exists [QueryFirst sel]. reflexivity.
  - exists []. cbn. now rewrite afterAsking_nil.
Qed.

Lemma extends_firstUnique (paths : list Path) : extends (firstUnique paths).
Proof.
  induction paths as [|c paths IH]; [apply extends_ret|].
  cbn [firstUnique]. apply extends_bind; [apply extends_unique|].
  intros [|]; [apply extends_ret|exact IH].
Qed.

Lemma extends_findUniquePath (config : Options.t) (stack : list (list Node.t))
      (fallback : option (M (option Path))) :
  extends (orNull fallback) -> extends (findUniquePath config stack fallback).
Proof.
  intros Hfallback. rewrite findUniquePath_unfold.
  destruct (_ <? _); [exact Hfallback|apply extends_firstUnique].
Qed.

Lemma extends_walk (config : Options.t) (limit : Limit)
      (fallback : option (M (option Path))) (current : Element) :
  extends (orNull fallback) ->
  forall stack i, extends (walk config limit fallback current stack i).
Proof.
  intros Hfallback. induction current as [current IH] using Element_parent_ind.
  intros stack i. rewrite walk_unfold.
  destruct (belowRootParent config current); [|apply extends_ret]. cbv zeta.
  apply extends_bind.
  - destruct (_ <=? _); [now apply extends_findUniquePath|apply extends_ret].
  - intros [path|]; [apply extends_ret|].
    destruct (Dom.parentElement current) as [parent|] eqn:Hparent;
      [|apply extends_ret].
    apply IH. now apply parentElement_parentNode.
Qed.

Lemma extends_bottomUpSearch (config : Options.t) (input : Element) (limit : Limit)
      (fallback : option (M (option Path))) :
  extends (orNull fallback) -> extends (bottomUpSearch config input limit fallback).
Proof.
  intros Hfallback. unfold bottomUpSearch.
  apply extends_bind; [now apply extends_walk|].
  intros [[path|] stack]; cbn [fst snd];
    [apply extends_ret | now apply extends_findUniquePath].
Qed.

Lemma extends_search (config : Options.t) (input : Element) :
  extends (search config input).
Proof.
  unfold search. repeat apply extends_bottomUpSearch. apply extends_ret.
Qed.

Lemma extends_forEach {A B} (xs : list A) (body : A -> M (list B)) :
  (forall x, extends (body x)) -> extends (forEach xs body).
Proof.
  intros Hbody. induction xs as [|x xs IH]; [apply extends_ret|].
  cbn [forEach]. apply extends_bind; [apply Hbody|].
  intros ys. apply extends_bind; [exact IH|]. intros zs. apply extends_ret.
Qed.

Lemma extends_optimizeFuel (fuel : nat) (config : Options.t) (input : Element) :
  forall path, extends (optimizeFuel fuel config path input).
Proof.
  induction fuel as [|fuel IH]; intros path; [apply extends_ret|].
  cbn [optimizeFuel]. destruct (_ && _)%bool; [|apply extends_ret].
  apply extends_forEach. intros i. cbv zeta.
  apply extends_bind; [apply extends_unique|]. intros u.
  apply extends_bind; [destruct u; [apply extends_same|apply extends_ret]|].
  intros [|]; [|apply extends_ret].
  apply extends_bind; [apply IH|]. intros rest. apply extends_ret.
Qed.

Lemma extends_minimized (config : Options.t) (path : Path) (input : Element) :
  extends (minimized config path input).
Proof.
  unfold minimized. apply extends_bind; [apply extends_optimizeFuel|].
  intros accepted. apply extends_ret.
Qed.

(** X12. For an element that is not [html], whatever the outcome is, a
    selector or an error, the call leaves its own resolved options in the
    [config] slot (they stay there for the helpers of a later call to
    read), and it only adds to the queries sent before. *)
Theorem generate_leaves_config (input : Element) (options : option Options.partial)
        (w : World) :
  Dom.nodeType input = Dom.ELEMENT_NODE ->
  toLowerCase (Dom.tagName input) <> "html" ->
  exists asked,
    snd (generate input options w)
    = mkWorld (Some (Options.spread defaults options)) (queries w ++ asked).
Proof.
  intros Helement Hhtml. unfold generate.
  rewrite Helement, Z.eqb_refl. cbn [negb].
  destruct (String.eqb_spec "html" (toLowerCase (Dom.tagName input))); [congruence|].
  cbv zeta. unfold bind at 1, setConfig at 1.
  set (config := Options.spread defaults options).
  assert (Hrest : extends (path <- search config input ;;
                           match path with
                           | Some path =>
                               path <- minimized config path input ;; lift (selector path)
                           | None => throw NotFound
                           end)).
  { apply extends_bind; [apply extends_search|].
    intros [path|]; [|apply extends_throw].
    apply extends_bind; [apply extends_minimized|].
    intros best w0. exists []. cbn. now rewrite afterAsking_nil. }
  destruct (Hrest (mkWorld (Some config) (queries w))) as [asked Hasked].
  exists asked. exact Hasked.
Qed.

(** *** An element with an id *)

Lemma dispensableNth_id (s : string) (cost : Z) (level : option Z) :
  dispensableNth (Node.mk ("#" +++ s) cost level) = false.
Proof.
  unfold dispensableNth, startsWith. cbn. now destruct s.
Qed.

(** X14. An element with a non-empty id gets one single candidate under
    every policy, the escaped [#id] with penalty 0: classes, attributes and
    tag are not looked at, and no [:nth-child] variant is made of it, whatever
    its position. *)
Theorem levelOf_id (config : Options.t) (limit : Limit) (current : Element) (i : Z) :
  Dom.id current <> EmptyString ->
  levelOf config limit current i
  = [Node.mk ("#" +++ cssesc (Dom.id current)) 0 (Some i)].
Proof.
  intros Hid. unfold levelOf, candidates. rewrite maybe_one. unfold id.
  destruct (String.eqb_spec (Dom.id current) EmptyString); [contradiction|].
  cbn [negb].
  destruct limit, (index current) as [[|k]|]; try reflexivity;
    cbn [limited firstn]; unfold withNth; cbn [filter];
    rewrite dispensableNth_id; reflexivity.
Qed.

(** *** The cheapest unique combination *)

Lemma unique_false (c : Path) (w w' : World) :
  unique c w = (Return false, w') -> (1 < matches c)%nat.
Proof.
  destruct c as [|node rest] eqn:Ec; [discriminate|]. rewrite <- Ec.
  rewrite unique_of_matches by (apply nonempty_renders; congruence).
  destruct (matches c) as [|[|n]]; intros [=]. lia.
Qed.

(** A path that the loop returns stands behind paths matching several
    nodes. *)
Lemma firstUnique_Some (paths : list Path) (w w' : World) (c : Path) :
  firstUnique paths w = (Return (Some c), w') ->
  exists before after,
    paths = before ++ c :: after /\
    Forall (fun b => (1 < matches b)%nat) before /\
    matches c = 1%nat.
Proof.
  revert w. induction paths as [|a paths IH]; intros w Hrun; [discriminate|].
  cbn [firstUnique] in Hrun.
  apply bind_inv in Hrun as (u & w1 & Hu & Hrun).
  destruct u.
  - unfold ret in Hrun. injection Hrun as <- _.
    exists [], paths. repeat split; [constructor|].
    exact (ensures_run _ _ _ _ _ (unique_ensures a) Hu).
  - destruct (IH _ Hrun) as (before & after & -> & Hbefore & Hc).
    exists (a :: before), after. repeat split; [|exact Hc].
    constructor; [now apply unique_false in Hu|exact Hbefore].
Qed.

Lemma sorted_after (before after : list Path) (c : Path) :
  StronglySorted cheaper (before ++ c :: after) -> Forall (cheaper c) after.
Proof.
  induction before as [|b before IH]; cbn; intros H; inversion H; subst; auto.
Qed.

(** X17. When a stack fits the threshold and its resolution returns a path,
    that path is a combination of the stack, matches exactly one node, and
    no combination of the stack that matches exactly one node has a smaller
    total penalty. *)
Theorem findUniquePath_cheapest (config : Options.t) (stack : list (list Node.t))
        (fallback : option (M (option Path))) (w w' : World) (c : Path) :
  Z.of_nat (count stack) <= Options.threshold config ->
  findUniquePath config stack fallback w = (Return (Some c), w') ->
  In c (combinations stack []) /\
  matches c = 1%nat /\
  forall c', In c' (combinations stack []) -> matches c' = 1%nat ->
             penalty c <= penalty c'.
Proof.
  intros Hfits Hrun.
  rewrite (findUniquePath_within _ _ fallback Hfits), findUniquePath_unfold in Hrun.
  fold (count stack) in Hrun.
  destruct (Z.ltb_spec (Options.threshold config) (Z.of_nat (count stack))); [lia|].
  apply firstUnique_Some in Hrun as (before & after & Hsplit & Hbefore & Hone).
  pose proof (sort_sorted (combinations stack [])) as Hsorted.
  rewrite Hsplit in Hsorted. apply sorted_after in Hsorted.
  split; [apply sort_In; rewrite Hsplit; apply in_elt|].
  split; [exact Hone|].
  intros c' Hin Hone'. apply sort_In in Hin. rewrite Hsplit in Hin.
  apply in_app_or in Hin as [Hin|[<-|Hin]].
  - rewrite Forall_forall in Hbefore. specialize (Hbefore _ Hin). lia.
  - lia.
  - rewrite Forall_forall in Hsorted. now apply Hsorted.
Qed.

(** *** The budget of one policy *)

Lemma findUniquePath_alone_asked (config : Options.t) (stack : list (list Node.t))
      (w : World) :
  exists asked,
    snd (findUniquePath config stack None w) = afterAsking w asked /\
    Z.of_nat (length asked) <= Z.max 0 (Options.threshold config).
Proof.
  rewrite findUniquePath_unfold.
  destruct (Z.ltb_spec (Options.threshold config)
                       (Z.of_nat (length (combinations stack [])))) as [Hover|Hfits].
  - exists []. cbn. rewrite afterAsking_nil. split; [reflexivity|lia].
  - destruct (firstUnique_asked (sort (combinations stack [])) w)
      as (asked & Hw & Hlen & _).
    exists asked. rewrite sort_length in Hlen. split; [exact Hw|lia].
Qed.

Lemma walk_alone_asked (config : Options.t) (limit : Limit) (current : Element) :
  forall stack i w,
  exists asked,
    snd (walk config limit None current stack i w) = afterAsking w asked /\
    Z.of_nat (length asked)
    <= Z.of_nat (length (ancestorStack config limit current stack i) - length stack)
       * Z.max 0 (Options.threshold config).
Proof.
  induction current as [current IH] using Element_parent_ind.
  intros stack i w. rewrite ancestorStack_unfold, walk_unfold.
  destruct (belowRootParent config current).
  2: { exists []. cbn. rewrite afterAsking_nil. split; [reflexivity|lia]. }
  cbv zeta. set (pushed := stack ++ [levelOf config limit current i]).
  assert (Hpushed : length pushed = S (length stack))
    by (unfold pushed; rewrite length_app; cbn; lia).
  assert (Hattempt : exists asked,
             snd ((if Options.seedMinLength config <=? Z.of_nat (length pushed)
                   then findUniquePath config pushed None else ret None) w)
             = afterAsking w asked /\
             Z.of_nat (length asked) <= Z.max 0 (Options.threshold config)).
  { destruct (_ <=? _); [apply findUniquePath_alone_asked|].
    exists []. cbn. rewrite afterAsking_nil. split; [reflexivity|lia]. }
  destruct Hattempt as (asked & Hw & Hlen).
  unfold bind.
  destruct ((if Options.seedMinLength config <=? Z.of_nat (length pushed)
             then findUniquePath config pushed None else ret None) w)
    as [[[path|]|e] w1]; cbn [snd] in Hw; subst w1.
  - exists asked. split; [reflexivity|].
    destruct (Dom.parentElement current) as [parent|].
    + pose proof (ancestorStack_length config limit parent pushed (i + 1)). nia.
    + nia.
  - destruct (Dom.parentElement current) as [parent|] eqn:Hparent.
    + destruct (IH parent (parentElement_parentNode _ _ Hparent) pushed (i + 1)
                   (afterAsking w asked)) as (more & Hmore & Hbound).
      exists (asked ++ more). rewrite Hmore, afterAsking_app.
      split; [reflexivity|].
      pose proof (ancestorStack_length config limit parent pushed (i + 1)).
      rewrite length_app. nia.
    + exists asked. split; [reflexivity|]. nia.
  - exists asked. split; [reflexivity|].
    destruct (Dom.parentElement current) as [parent|].
    + pose proof (ancestorStack_length config limit parent pushed (i + 1)). nia.
    + nia.
Qed.

(** X15. A policy searched without fallback sends at most [threshold]
    queries per resolution, one resolution per level of the ancestor stack
    and one more after the loop: the queries number at most
    (levels + 1) x threshold, whatever the size of the levels. *)
Theorem bottomUpSearch_budget (config : Options.t) (input : Element) (limit : Limit)
        (w : World) :
  exists asked,
    snd (bottomUpSearch config input limit None w) = afterAsking w asked /\
    Z.of_nat (length asked)
    <= (Z.of_nat (length (ancestorStack config limit input [] 0)) + 1)
       * Z.max 0 (Options.threshold config).
Proof.
  unfold bottomUpSearch, bind.
  destruct (walk_alone_asked config limit input [] 0 w) as (asked & Hw & Hlen).
  cbn [length] in Hlen. rewrite Nat.sub_0_r in Hlen.
  destruct (walk config limit None input [] 0 w) as [[[path left0]|e] w1];
    cbn [snd fst] in *; subst w1.
  - destruct path as [path|].
    + exists asked. split; [reflexivity|]. nia.
    + destruct (findUniquePath_alone_asked config left0 (afterAsking w asked))
        as (more & Hmore & Hbound).
      exists (asked ++ more). rewrite Hmore, afterAsking_app.
      split; [reflexivity|]. rewrite length_app. nia.
  - exists asked. split; [reflexivity|]. nia.
Qed.

(** *** The end of the selector *)

Lemma basedOn_combination (level wider : list Node.t) (stack : list (list Node.t))
      (i : Z) (c : Path) :
  incl level wider ->
  basedOn level stack i -> In c (combinations stack []) -> startsIn wider c.
Proof.
  intros Hincl [rest ->] Hc. apply combinations_In in Hc.
  inversion Hc as [|f ? c' ? Hf _]; subst.
  exists f, c'. split; [reflexivity|now apply Hincl].
Qed.

Lemma findUniquePath_empty (Q : Path -> Prop) (config : Options.t)
      (fallback : option (M (option Path))) :
  ensures (orNull fallback) (found Q) ->
  ensures (findUniquePath config [] fallback) (found Q).
Proof.
  intros Hfallback. rewrite findUniquePath_unfold.
  destruct (_ <? _); [exact Hfallback|].
  intros w. cbn. now left.
Qed.

(** The first fragment of a path that a policy finds is a candidate of the
    input itself. *)
Lemma bottomUpSearch_head (config : Options.t) (input : Element) (limit : Limit)
      (fallback : option (M (option Path))) (wider : list Node.t) :
  incl (levelOf config limit input 0) wider ->
  ensures (orNull fallback) (found (startsIn wider)) ->
  ensures (bottomUpSearch config input limit fallback) (found (startsIn wider)).
Proof.
  intros Hincl Hfallback. unfold bottomUpSearch.
  set (level := levelOf config limit input 0).
  assert (Hcombos : forall stack i c,
             basedOn level stack i -> In c (combinations stack []) -> startsIn wider c)
    by (intros stack i c; now apply basedOn_combination).
  assert (Hpush : forall stack i current,
             basedOn level stack i ->
             basedOn level (stack ++ [levelOf config limit current i]) (i + 1))
    by (intros stack i current [rest ->]; now exists (rest ++ [levelOf config limit current i])).
  apply (ensures_bind _ _
           (fun o => match o with
                     | Return (Some path, _) => startsIn wider path
                     | Return (None, kept) => kept = [] \/ exists i', basedOn level kept i'
                     | Throw e => oracleError e
                     end)).
  - rewrite walk_unfold.
    destruct (belowRootParent config input); [|apply ensures_ret; now left].
    cbv zeta. cbn [app]. fold level.
    assert (Hbase : basedOn level [level] (0 + 1)) by now exists [].
    eapply (ensures_bind _ _ (found (startsIn wider))).
    + destruct (_ <=? _); [|apply ensures_ret; exact I].
      apply findUniquePath_all; [|exact Hfallback].
      intros c. now apply Hcombos with (i := 0 + 1).
    + intros [path|] Hpath; [apply ensures_ret; exact Hpath|].
      destruct (Dom.parentElement input) as [parent|].
      * eapply ensures_weaken;
          [apply (walk_all (startsIn wider) (basedOn level)); eassumption|].
        intros [[[path|] kept]|e] H; cbn in *; auto.
      * apply ensures_ret. right. eauto.
    + intros e He. exact He.
  - intros [[path|] kept] Hr; cbn [fst snd].
    + apply ensures_ret. exact Hr.
    + destruct Hr as [->|[i' Hbase]].
      * now apply findUniquePath_empty.
      * apply findUniquePath_all; [|exact Hfallback].
        intros c. now apply Hcombos with (i := i').
  - intros e He. exact He.
Qed.

Lemma search_head (config : Options.t) (input : Element) :
  ensures (search config input) (found (startsIn (levelOf config All input 0))).
Proof.
  destruct (levels_narrow_incl config input 0) as [Hone Htwo].
  unfold search.
  apply bottomUpSearch_head; [apply incl_refl|].
  apply bottomUpSearch_head; [exact Htwo|].
  apply bottomUpSearch_head; [exact (incl_tran Hone Htwo)|].
  apply ensures_ret. exact I.
Qed.

(** X16. The selector that [generate] returns for an element other than
    [html] ends with the text of a candidate of that very element: one of
    the fragments of its level 0 under [All] (its [#id], a class, a data
    attribute, its tag or [*], with or without [:nth-child]).  Neither a
    narrower policy nor the minimizer changes that. *)
Theorem generate_ends_with_candidate (input : Element) (options : option Options.partial)
        (w w' : World) (sel : string) :
  generate input options w = (Return sel, w') ->
  toLowerCase (Dom.tagName input) <> "html" ->
  exists f before,
    In f (levelOf (Options.spread defaults options) All input 0) /\
    sel = before +++ Node.name f.
Proof.
  intros Hrun Hhtml. unfold generate in Hrun.
  destruct (negb (Dom.nodeType input =? Dom.ELEMENT_NODE)); [discriminate|].
  destruct (String.eqb_spec "html" (toLowerCase (Dom.tagName input))); [congruence|].
  cbv zeta in Hrun.
  apply bind_inv in Hrun as ([] & w0 & _ & Hrun).
  apply bind_inv in Hrun as (found0 & w1 & Hsearch & Hrun).
  destruct found0 as [path|]; [|discriminate].
  apply bind_inv in Hrun as (best & w2 & Hmin & Hsel).
  unfold lift in Hsel. injection Hsel as Hsel _.
  pose proof (ensures_run _ _ _ _ _ (search_head _ input) Hsearch)
    as (f & rest & -> & Hf).
  unfold minimized in Hmin.
  apply bind_inv in Hmin as (accepted & w3 & Hopt & Hret).
  unfold ret in Hret. injection Hret as Hbest _.
  pose proof (ensures_run _ _ _ _ _ (optimizeFuel_ends _ _ input (f :: rest)) Hopt)
    as Hends.
  cbn in Hends. pose proof (sort_head accepted) as Hhead.
  assert (Hstart : exists rest', best = f :: rest').
  { destruct (sort accepted) as [|first others]; subst best; [now exists rest|].
    destruct Hhead as [Hin _]. rewrite Forall_forall in Hends.
    destruct (Hends _ Hin) as (Hhd & _).
    destruct first as [|g rest']; [discriminate|].
    cbn in Hhd. injection Hhd as ->. now exists rest'. }
  destruct Hstart as [rest' ->].
  destruct (selectorStep_suffix (Node.name f) rest' f (Node.name f)) as [before Hbefore];
    [now exists EmptyString|].
  exists f, before. split; [exact Hf|].
  rewrite selector_cons in Hsel. injection Hsel as <-. exact Hbefore.
Qed.
End Properties.

(** An [HTML] element of an HTML document, with options that move the
    root. *)
Lemma generate_html_witness :
  @generate Fixtures.threeParagraphs Fixtures.html
    (Some (Options.mkPartial (Some Fixtures.div) None None None None None (Some 0%Z)))
    Fixtures.fresh
  = (Return "html", Fixtures.fresh).
Proof.
  apply (@generate_html Fixtures.threeParagraphs); reflexivity.
Defined.

(** The second of three paragraphs, searched with every candidate kept. *)
Lemma levelOf_position_witness :
  @index Fixtures.p2 = Some 2%nat /\
  @levelOf Fixtures.threeParagraphs (@defaults Fixtures.threeParagraphs) All Fixtures.p2 0
  = [Fixtures.fragment "p" 3 0; Fixtures.fragment "p:nth-child(2)" 4 0].
Proof.
  split; [reflexivity|].
  rewrite (@levelOf_position Fixtures.threeParagraphs _ All Fixtures.p2 0 2%nat);
    [reflexivity | reflexivity | lia].
Defined.

(** C4 as first stated fails under [One]: the paragraph has position 2 and
    its tag fragment is dispensable, yet the level holds the derived fragment
    alone, not the tier followed by it. *)
Lemma levelOf_One_replaces :
  let config := @defaults Fixtures.threeParagraphs in
  let tier := firstn 1 (@candidates Fixtures.threeParagraphs config Fixtures.p2) in
  @index Fixtures.p2 = Some 2%nat /\
  tier = [Node.mk "p" 3 None] /\
  dispensableNth (Node.mk "p" 3 None) = true /\
  @levelOf Fixtures.threeParagraphs config One Fixtures.p2 0
  = [Fixtures.fragment "p:nth-child(2)" 4 0] /\
  @levelOf Fixtures.threeParagraphs config One Fixtures.p2 0
  <> map (setLevel 0)
         (tier ++ map (fun node => nthChild node 2) (filter dispensableNth tier)).
Proof.
  cbv zeta. repeat split; try reflexivity. discriminate.
Defined.

(** The level of the second paragraph: the tag alone matches three nodes,
    the tag with its position matches one. *)
Lemma findUniquePath_order_witness :
  let stack := [[Fixtures.fragment "p" 3 0; Fixtures.fragment "p:nth-child(2)" 4 0]] in
  let config := @defaults Fixtures.threeParagraphs in
  Z.of_nat (length (combinations stack [])) <= Options.threshold config /\
  @findUniquePath Fixtures.threeParagraphs config stack None Fixtures.fresh
  = (Return (Some [Fixtures.fragment "p:nth-child(2)" 4 0]),
     mkWorld None [QueryAll "p"; QueryAll "p:nth-child(2)"]).
Proof.
  cbv zeta.
  assert (Hfits : Z.of_nat (length (combinations
            [[Fixtures.fragment "p" 3 0; Fixtures.fragment "p:nth-child(2)" 4 0]] []))
          <= Options.threshold (@defaults Fixtures.threeParagraphs)) by (cbn; lia).
  split; [exact Hfits|].
  destruct (@findUniquePath_order Fixtures.threeParagraphs _ _ None Fixtures.fresh Hfits)
    as (_ & _ & Hfound & _).
  apply (Hfound [[Fixtures.fragment "p" 3 0]] [Fixtures.fragment "p:nth-child(2)" 4 0] []).
  - reflexivity.
  - repeat constructor.
  - reflexivity.
Defined.

(** C5 as first stated fails when a combination matches no node: a
    paragraph that has no parent, in a document without paragraphs.  Its one
    combination fits the threshold and does not match uniquely, yet the
    resolution does not return [null]: it raises the error of the oracle. *)
Lemma findUniquePath_raises :
  let config := @defaults Fixtures.noParagraph in
  let stack := [@levelOf Fixtures.noParagraph config All Fixtures.detached 0] in
  combinations stack [] = [[Fixtures.fragment "p" 3 0]] /\
  Z.of_nat (length (combinations stack [])) <= Options.threshold config /\
  Forall (fun c => @matches Fixtures.noParagraph c <> 1%nat) (combinations stack []) /\
  @findUniquePath Fixtures.noParagraph config stack None Fixtures.fresh
  = (Throw (CantSelect "p"), mkWorld None [QueryAll "p"]).
Proof.
  cbv zeta. repeat split; try reflexivity.
  - cbn; lia.
  - repeat constructor. discriminate.
Defined.

(** A path as the minimizer leaves it: the levels 0 and 1 are contiguous,
    the level 3 is not. *)
Lemma selector_rendered_witness :
  let target := Fixtures.fragment "p" 3 0 in
  let ancestors := [Fixtures.fragment "section" 3 1; Fixtures.fragment "#x" 0 3] in
  Forall (fun f => Node.level f <> None) ancestors /\
  selector (target :: ancestors) = Return "#x section > p".
Proof.
  cbv zeta.
  assert (Hlevels : Forall (fun f => Node.level f <> None)
            [Fixtures.fragment "section" 3 1; Fixtures.fragment "#x" 0 3])
    by (repeat constructor; discriminate).
  split; [exact Hlevels|].
  rewrite (selector_rendered _ _ Hlevels). reflexivity.
Defined.

(** Scenario E: the search found [#x > section > p]; the minimizer drops
    [section] and [#x p] still selects the paragraph alone. *)
Lemma minimized_monotone_witness :
  let path := [Fixtures.fragment "p" 3 0; Fixtures.fragment "section" 3 1;
               Fixtures.fragment "#x" 0 2] in
  let best := [Fixtures.fragment "p" 3 0; Fixtures.fragment "#x" 0 2] in
  let config := @defaults Fixtures.scenarioE in
  nonNegative path /\
  @minimized Fixtures.scenarioE config path Fixtures.paragraphE Fixtures.fresh
  = (Return best, mkWorld None [QueryAll "#x p"; QueryFirst "#x p"]) /\
  penalty best <= penalty path.
Proof.
  cbv zeta.
  assert (Hnn : nonNegative [Fixtures.fragment "p" 3 0; Fixtures.fragment "section" 3 1;
                             Fixtures.fragment "#x" 0 2])
    by (repeat constructor; cbn; lia).
  assert (Hrun : @minimized Fixtures.scenarioE (@defaults Fixtures.scenarioE)
                   [Fixtures.fragment "p" 3 0; Fixtures.fragment "section" 3 1;
                    Fixtures.fragment "#x" 0 2] Fixtures.paragraphE Fixtures.fresh
                 = (Return [Fixtures.fragment "p" 3 0; Fixtures.fragment "#x" 0 2],
                    mkWorld None [QueryAll "#x p"; QueryFirst "#x p"]))
    by reflexivity.
  split; [exact Hnn|]. split; [exact Hrun|].
  exact (proj1 (@minimized_monotone Fixtures.scenarioE _ _ _ _ _ _ Hnn Hrun)).
Defined.

(** Scenario E from the entry point: the search finds [#x > section > p],
    the minimizer accepts [#x p]. *)
Lemma generate_unique_witness :
  toLowerCase (Dom.tagName Fixtures.paragraphE) <> "html" /\
  @generate Fixtures.scenarioE Fixtures.paragraphE None Fixtures.fresh
  = (Return "#x p",
     mkWorld (Some (@defaults Fixtures.scenarioE))
       [QueryAll "p"; QueryAll "p:nth-child(1)";
        QueryAll "section > p"; QueryAll "section:nth-child(1) > p";
        QueryAll "section > p:nth-child(1)";
        QueryAll "section:nth-child(1) > p:nth-child(1)";
        QueryAll "#x > section > p";
        QueryAll "#x p"; QueryFirst "#x p"]) /\
  length (@querySelectorAll Fixtures.scenarioE "#x p") = 1%nat.
Proof.
  assert (Hhtml : toLowerCase (Dom.tagName Fixtures.paragraphE) <> "html")
    by discriminate.
  split; [exact Hhtml|]. split; [reflexivity|].
  destruct (@generate_unique Fixtures.scenarioE Fixtures.paragraphE None
              Fixtures.fresh _ "#x p" eq_refl Hhtml)
    as (_ & _ & _ & _ & _ & Hone & _).
  exact Hone.
Defined.

(** C1 as first stated fails in two ways.  A second [html] element appended
    to the body gets the selector ["html"], which matches two nodes.  A
    paragraph without any parent gets the selector ["p"], which matches one
    node of the document, another one (reference 4, not 7). *)
Lemma generate_not_identity :
  (@generate Fixtures.nestedHtml Fixtures.strayHtml None Fixtures.fresh
   = (Return "html", Fixtures.fresh) /\
   @querySelectorAll Fixtures.nestedHtml "html" = [1%nat; 8%nat] /\
   @querySelectorAll Fixtures.nestedHtml "html" <> [Dom.ref Fixtures.strayHtml]) /\
  (@generate Fixtures.oneParagraph Fixtures.detached None Fixtures.fresh
   = (Return "p", mkWorld (Some (@defaults Fixtures.oneParagraph)) [QueryAll "p"]) /\
   @querySelectorAll Fixtures.oneParagraph "p" = [4%nat] /\
   @querySelectorAll Fixtures.oneParagraph "p" <> [Dom.ref Fixtures.detached]).
Proof.
  repeat split; try reflexivity; discriminate.
Defined.

(** The first of two like paragraphs, with the first [div] as root: the
    whole stack of [All] implies four combinations, so the search runs as if
    it had no fallback, and [generate] reports that nothing was found. *)
Lemma search_handover_witness :
  let config := Options.spread (@defaults Fixtures.twoSections) Fixtures.rootDivTwo in
  let narrower :=
    Some (@bottomUpSearch Fixtures.twoSections config Fixtures.paragraphTwo Two
            (Some (@bottomUpSearch Fixtures.twoSections config Fixtures.paragraphTwo One None))) in
  Z.of_nat (count (@ancestorStack Fixtures.twoSections config All Fixtures.paragraphTwo [] 0))
  <= Options.threshold config /\
  @bottomUpSearch Fixtures.twoSections config Fixtures.paragraphTwo All narrower Fixtures.fresh
  = @bottomUpSearch Fixtures.twoSections config Fixtures.paragraphTwo All None Fixtures.fresh /\
  fst (@generate Fixtures.twoSections Fixtures.paragraphTwo Fixtures.rootDivTwo Fixtures.fresh)
  = Throw NotFound.
Proof.
  cbv zeta.
  destruct (@search_handover Fixtures.twoSections Fixtures.paragraphTwo
              Fixtures.rootDivTwo Fixtures.fresh) as (_ & Hwithin & Hfailure).
  assert (Hfits : Z.of_nat (count (@ancestorStack Fixtures.twoSections
                     (Options.spread (@defaults Fixtures.twoSections) Fixtures.rootDivTwo)
                     All Fixtures.paragraphTwo [] 0))
                  <= Options.threshold
                       (Options.spread (@defaults Fixtures.twoSections) Fixtures.rootDivTwo))
    by (vm_compute; discriminate).
  split; [exact Hfits|]. split.
  - apply Hwithin. exact Hfits.
  - apply Hfailure. split; [reflexivity|]. split; [discriminate|reflexivity].
Defined.

(** C2 as first stated fails when a policy finds nothing within the
    threshold.  For the first of two like paragraphs, with the first [div]
    as root, the search under [All] asks its ten questions and ends
    without a path whatever its fallback is: the fallback is never called,
    the policies [Two] and [One] never run, and [generate] reports the
    failure at once. *)
Lemma search_without_handover :
  let config := Options.spread (@defaults Fixtures.twoSections) Fixtures.rootDivTwo in
  let asked :=
    [QueryAll "p"; QueryAll "p:nth-child(1)";
     QueryAll "div > p"; QueryAll "div:nth-child(1) > p";
     QueryAll "div > p:nth-child(1)"; QueryAll "div:nth-child(1) > p:nth-child(1)";
     QueryAll "div > p"; QueryAll "div:nth-child(1) > p";
     QueryAll "div > p:nth-child(1)"; QueryAll "div:nth-child(1) > p:nth-child(1)"] in
  (forall fallback,
      @bottomUpSearch Fixtures.twoSections config Fixtures.paragraphTwo All fallback
        (mkWorld (Some config) [])
      = (Return None, mkWorld (Some config) asked)) /\
  @generate Fixtures.twoSections Fixtures.paragraphTwo Fixtures.rootDivTwo Fixtures.fresh
  = (Throw NotFound, mkWorld (Some config) asked).
Proof.
  cbv zeta. split; [intros fallback|]; reflexivity.
Defined.

(** Scenario C of the specification: the second of three paragraphs. *)
Example generate_second_paragraph :
  @generate Fixtures.threeParagraphs Fixtures.p2 None Fixtures.fresh
  = (Return "p:nth-child(2)",
     mkWorld (Some (@defaults Fixtures.threeParagraphs))
             [QueryAll "p"; QueryAll "p:nth-child(2)"]).
Proof. reflexivity. Qed.

(** The same with a threshold of one combination: [All] and [Two] hand
    over, [One] answers with its single candidate. *)
Example generate_threshold_one :
  @generate Fixtures.threeParagraphs Fixtures.p2
    (Some (Options.mkPartial None None None None None None (Some 1))) Fixtures.fresh
  = (Return "p:nth-child(2)",
     mkWorld (Some (Options.spread (@defaults Fixtures.threeParagraphs)
                      (Some (Options.mkPartial None None None None None None (Some 1)))))
             [QueryAll "p:nth-child(2)"]).
Proof. reflexivity. Qed.

(** The document node itself is not an element. *)
Lemma generate_non_element_witness :
  Dom.nodeType Fixtures.documentNode <> Dom.ELEMENT_NODE /\
  @generate Fixtures.threeParagraphs Fixtures.documentNode None Fixtures.fresh
  = (Throw NonElement, Fixtures.fresh).
Proof.
  assert (H : Dom.nodeType Fixtures.documentNode <> Dom.ELEMENT_NODE) by discriminate.
  split; [exact H|].
  exact (@generate_non_element Fixtures.threeParagraphs _ None Fixtures.fresh H).
Defined.

(** The second of three paragraphs has position 2. *)
Lemma index_position_witness :
  Dom.parentNode Fixtures.p2 = Some Fixtures.div /\
  @index Fixtures.p2 = Some 2%nat.
Proof.
  assert (Hparent : Dom.parentNode Fixtures.p2 = Some Fixtures.div) by reflexivity.
  split; [exact Hparent|].
  destruct (@index_position Fixtures.p2 Fixtures.div Hparent) as [Hfound _].
  destruct (Hfound [Dom.mkChild 4%nat Dom.ELEMENT_NODE]
                   (Dom.mkChild 5%nat Dom.ELEMENT_NODE)
                   [Dom.mkChild 6%nat Dom.ELEMENT_NODE]) as [Hindex _].
  - reflexivity.
  - repeat constructor. discriminate.
  - reflexivity.
  - exact Hindex.
Defined.

(** Two paths of penalty 4 behind a path of penalty 3 that came last. *)
Lemma sort_characterised_witness :
  let a := [Fixtures.fragment "p:nth-child(2)" 4 0] in
  let b := [Fixtures.fragment "*" 4 0] in
  let c := [Fixtures.fragment "p" 3 0] in
  StronglySorted cheaper [c; a; b] /\
  [c; a; b] = sort [a; b; c].
Proof.
  cbv zeta.
  assert (Hsorted : StronglySorted cheaper
            [[Fixtures.fragment "p" 3 0]; [Fixtures.fragment "p:nth-child(2)" 4 0];
             [Fixtures.fragment "*" 4 0]]).
  { repeat constructor; unfold cheaper; cbn; lia. }
  split; [exact Hsorted|].
  apply (sort_characterised _ _ Hsorted).
  intros v. cbn. destruct v as [|q|q]; try reflexivity.
  destruct (Pos.eqb_spec 4 q), (Pos.eqb_spec 3 q); try reflexivity. congruence.
Defined.

(** The default threshold, for the second of three paragraphs. *)
Lemma narrowest_fits_witness :
  let config := @defaults Fixtures.threeParagraphs in
  1 <= Options.threshold config /\
  count (@ancestorStack Fixtures.threeParagraphs config One Fixtures.p2 [] 0) = 1%nat.
Proof.
  cbv zeta.
  assert (H : 1 <= Options.threshold (@defaults Fixtures.threeParagraphs))
    by (cbn; lia).
  split; [exact H|].
  exact (proj1 (proj2 (@narrowest_fits Fixtures.threeParagraphs _ Fixtures.p2 H))).
Defined.

(** Scenario E: the search itself finds three contiguous levels. *)
Lemma search_child_chain_witness :
  let config := @defaults Fixtures.scenarioE in
  let path := [Fixtures.fragment "p" 3 0; Fixtures.fragment "section" 3 1;
               Fixtures.fragment "#x" 0 2] in
  fst (@search Fixtures.scenarioE config Fixtures.paragraphE Fixtures.fresh)
  = Return (Some path) /\
  selector path = Return "#x > section > p".
Proof.
  cbv zeta.
  destruct (@search Fixtures.scenarioE (@defaults Fixtures.scenarioE)
              Fixtures.paragraphE Fixtures.fresh) as [found0 w'] eqn:Hrun.
  assert (Hfound : found0 = Return (Some [Fixtures.fragment "p" 3 0;
                                          Fixtures.fragment "section" 3 1;
                                          Fixtures.fragment "#x" 0 2])).
  { apply (f_equal fst) in Hrun. vm_compute in Hrun. now symmetry. }
  subst found0. split; [reflexivity|].
  exact (proj2 (@search_child_chain Fixtures.scenarioE _ _ _ _ _ Hrun)).
Defined.

(** Scenario E: the one accepted path keeps [p] and [#x]. *)
Lemma optimize_keeps_ends_witness :
  let path := [Fixtures.fragment "p" 3 0; Fixtures.fragment "section" 3 1;
               Fixtures.fragment "#x" 0 2] in
  let kept := [Fixtures.fragment "p" 3 0; Fixtures.fragment "#x" 0 2] in
  @optimize Fixtures.scenarioE (@defaults Fixtures.scenarioE) path Fixtures.paragraphE
    Fixtures.fresh
  = (Return [kept], mkWorld None [QueryAll "#x p"; QueryFirst "#x p"]) /\
  hd_error kept = hd_error path /\ last kept any = last path any.
Proof.
  cbv zeta.
  assert (Hrun : @optimize Fixtures.scenarioE (@defaults Fixtures.scenarioE)
                   [Fixtures.fragment "p" 3 0; Fixtures.fragment "section" 3 1;
                    Fixtures.fragment "#x" 0 2] Fixtures.paragraphE Fixtures.fresh
                 = (Return [[Fixtures.fragment "p" 3 0; Fixtures.fragment "#x" 0 2]],
                    mkWorld None [QueryAll "#x p"; QueryFirst "#x p"]))
    by reflexivity.
  split; [exact Hrun|].
  pose proof (@optimize_keeps_ends Fixtures.scenarioE _ _ _ _ _ _ Hrun) as Hall.
  inversion Hall as [|? ? (Hhead & Hlast & _) _]; subst.
  split; [exact Hhead|exact Hlast].
Defined.

(** A path of two fragments under the default options. *)
Lemma optimize_short_witness :
  let path := [Fixtures.fragment "p" 3 0; Fixtures.fragment "div" 3 1] in
  ((length path <= 2)%nat
   \/ Z.of_nat (length path)
      <= Options.optimizedMinLength (@defaults Fixtures.threeParagraphs)) /\
  @minimized Fixtures.threeParagraphs (@defaults Fixtures.threeParagraphs) path
    Fixtures.p2 Fixtures.fresh
  = (Return path, Fixtures.fresh).
Proof.
  cbv zeta.
  assert (H : (length [Fixtures.fragment "p" 3 0; Fixtures.fragment "div" 3 1] <= 2)%nat
              \/ Z.of_nat (length [Fixtures.fragment "p" 3 0; Fixtures.fragment "div" 3 1])
                 <= Options.optimizedMinLength (@defaults Fixtures.threeParagraphs))
    by (left; cbn; lia).
  split; [exact H|].
  exact (proj2 (@optimize_short Fixtures.threeParagraphs _ _ Fixtures.p2 Fixtures.fresh H)).
Defined.

(** Three levels up to the body, under a seed of five. *)
Lemma bottomUpSearch_unseeded_witness :
  let config := Options.spread (@defaults Fixtures.threeParagraphs) Fixtures.seedFive in
  Z.of_nat (length (@ancestorStack Fixtures.threeParagraphs config All Fixtures.p2 [] 0))
  < Options.seedMinLength config /\
  @bottomUpSearch Fixtures.threeParagraphs config Fixtures.p2 All None Fixtures.fresh
  = @findUniquePath Fixtures.threeParagraphs config
      (@ancestorStack Fixtures.threeParagraphs config All Fixtures.p2 [] 0) None
      Fixtures.fresh.
Proof.
  cbv zeta.
  assert (H : Z.of_nat (length (@ancestorStack Fixtures.threeParagraphs
                 (Options.spread (@defaults Fixtures.threeParagraphs) Fixtures.seedFive)
                 All Fixtures.p2 [] 0))
              < Options.seedMinLength
                  (Options.spread (@defaults Fixtures.threeParagraphs) Fixtures.seedFive))
    by reflexivity.
  split; [exact H|].
  exact (@bottomUpSearch_unseeded Fixtures.threeParagraphs _ _ All None Fixtures.fresh H).
Defined.

(** The first [div] as root and its parent, the [section], as input. *)
Lemma generate_root_parent_witness :
  Dom.parentElement
    (Options.root (Options.spread (@defaults Fixtures.twoSections) Fixtures.rootDivTwo))
  = Some Fixtures.sectionTwo /\
  @generate Fixtures.twoSections Fixtures.sectionTwo Fixtures.rootDivTwo Fixtures.fresh
  = (Throw TypeError,
     mkWorld (Some (Options.spread (@defaults Fixtures.twoSections) Fixtures.rootDivTwo)) []).
Proof.
  split; [reflexivity|].
  apply (@generate_root_parent Fixtures.twoSections Fixtures.sectionTwo Fixtures.sectionTwo
           Fixtures.rootDivTwo Fixtures.fresh);
    [reflexivity | discriminate | reflexivity | reflexivity].
Defined.

(** A search that fails leaves its options behind all the same. *)
Lemma generate_leaves_config_witness :
  Dom.nodeType Fixtures.paragraphTwo = Dom.ELEMENT_NODE /\
  toLowerCase (Dom.tagName Fixtures.paragraphTwo) <> "html" /\
  config (snd (@generate Fixtures.twoSections Fixtures.paragraphTwo Fixtures.rootDivTwo
                 Fixtures.fresh))
  = Some (Options.spread (@defaults Fixtures.twoSections) Fixtures.rootDivTwo).
Proof.
  assert (Helement : Dom.nodeType Fixtures.paragraphTwo = Dom.ELEMENT_NODE) by reflexivity.
  assert (Hhtml : toLowerCase (Dom.tagName Fixtures.paragraphTwo) <> "html") by discriminate.
  split; [exact Helement|]. split; [exact Hhtml|].
  destruct (@generate_leaves_config Fixtures.twoSections Fixtures.paragraphTwo
              Fixtures.rootDivTwo Fixtures.fresh Helement Hhtml) as [asked Hasked].
  now rewrite Hasked.
Defined.

(** The [div] with id [x] of scenario E, which is a first child. *)
Lemma levelOf_id_witness :
  let divX := Dom.mkElement 7 Dom.ELEMENT_NODE "DIV" "x" [] []
                [Dom.mkChild 8 Dom.ELEMENT_NODE] (Some Fixtures.bodyElement) in
  Dom.id divX <> EmptyString /\
  @levelOf Fixtures.scenarioE (@defaults Fixtures.scenarioE) All divX 2
  = [Fixtures.fragment "#x" 0 2].
Proof.
  cbv zeta.
  assert (Hid : Dom.id (Dom.mkElement 7 Dom.ELEMENT_NODE "DIV" "x" [] []
                          [Dom.mkChild 8 Dom.ELEMENT_NODE] (Some Fixtures.bodyElement))
                <> EmptyString) by discriminate.
  split; [exact Hid|].
  exact (@levelOf_id Fixtures.scenarioE _ All _ 2 Hid).
Defined.

(** The second of three paragraphs: of the two combinations only the dearer
    one matches a single node. *)
Lemma findUniquePath_cheapest_witness :
  let stack := [[Fixtures.fragment "p" 3 0; Fixtures.fragment "p:nth-child(2)" 4 0]] in
  let config := @defaults Fixtures.threeParagraphs in
  Z.of_nat (count stack) <= Options.threshold config /\
  @findUniquePath Fixtures.threeParagraphs config stack None Fixtures.fresh
  = (Return (Some [Fixtures.fragment "p:nth-child(2)" 4 0]),
     mkWorld None [QueryAll "p"; QueryAll "p:nth-child(2)"]) /\
  @matches Fixtures.threeParagraphs [Fixtures.fragment "p:nth-child(2)" 4 0] = 1%nat.
Proof.
  cbv zeta.
  assert (Hfits : Z.of_nat (count [[Fixtures.fragment "p" 3 0;
                                    Fixtures.fragment "p:nth-child(2)" 4 0]])
                  <= Options.threshold (@defaults Fixtures.threeParagraphs))
    by (cbn; lia).
  assert (Hrun : @findUniquePath Fixtures.threeParagraphs
                   (@defaults Fixtures.threeParagraphs)
                   [[Fixtures.fragment "p" 3 0; Fixtures.fragment "p:nth-child(2)" 4 0]]
                   None Fixtures.fresh
                 = (Return (Some [Fixtures.fragment "p:nth-child(2)" 4 0]),
                    mkWorld None [QueryAll "p"; QueryAll "p:nth-child(2)"]))
    by reflexivity.
  split; [exact Hfits|]. split; [exact Hrun|].
  exact (proj1 (proj2 (@findUniquePath_cheapest Fixtures.threeParagraphs
                         _ _ None _ _ _ Hfits Hrun))).
Defined.

(** Scenario E: [#x p] ends with the tag fragment of the paragraph. *)
Lemma generate_ends_with_candidate_witness :
  toLowerCase (Dom.tagName Fixtures.paragraphE) <> "html" /\
  fst (@generate Fixtures.scenarioE Fixtures.paragraphE None Fixtures.fresh)
  = Return "#x p" /\
  exists f before,
    In f (@levelOf Fixtures.scenarioE (Options.spread (@defaults Fixtures.scenarioE) None)
            All Fixtures.paragraphE 0) /\
    "#x p" = before +++ Node.name f.
Proof.
  assert (Hhtml : toLowerCase (Dom.tagName Fixtures.paragraphE) <> "html")
    by discriminate.
  split; [exact Hhtml|]. split; [reflexivity|].
  destruct (@generate Fixtures.scenarioE Fixtures.paragraphE None Fixtures.fresh)
    as [outcome w'] eqn:Hrun.
  assert (Houtcome : outcome = Return "#x p").
  { apply (f_equal fst) in Hrun. vm_compute in Hrun. now symmetry. }
  subst outcome.
  exact (@generate_ends_with_candidate Fixtures.scenarioE _ None _ _ _ Hrun Hhtml).
Defined.
